(** * Timing fixes for ADM audioBlockFormats

    A shallow embedding of [ear/fileio/adm/timing_fixes.py] and the
    properties of its three passes:

    - [fix_blockFormat_durations]: the end of one block matches the start of
      the next;
    - [fix_blockFormat_interpolationLengths]: interpolation lengths are not
      greater than durations;
    - [fix_blockFormat_times_for_audioObjects]: blocks lie within the
      audioObjects that select them.

    The Python code mutates block formats in place, reports corrections with
    [warnings.warn] and gives up with [ValueError].  Here every function is a
    state transformer over the object it mutates, which also returns the
    warnings it emitted and how it completed; the state is kept when an
    exception is raised, as it is in Python. *)

From Stdlib Require Import QArith Lqa Bool String.
From stdpp Require Import base option list.

Local Open Scope Q_scope.

(** ** Times

    [rtime], [duration], [start] and [interpolationLength] are
    [fractions.Fraction] values: exact rationals, compared with [==], [<]
    and [>=] and combined with [+] and [-] only.  They are modelled as [Q];
    Python's [==] on fractions is [Qeq]. *)

Definition Qltb (x y : Q) : bool := negb (Qle_bool y x).

(** ** Data model (the parts of [elements] this module touches) *)

Module JumpPosition.
Record t : Type := {
  flag : bool;
  interpolationLength : option Q
}.
End JumpPosition.

(** [AudioBlockFormatObjects] is the only subclass of [BlockFormat] that has
    a [jumpPosition]; the other subclasses (DirectSpeakers, HOA, Matrix,
    Binaural) are not told apart here. *)
Inductive BlockClass : Type :=
| AudioBlockFormatObjects (jumpPosition : JumpPosition.t)
| AudioBlockFormatOther.

Module BlockFormat.
Record t : Type := {
  id : string;
  rtime : option Q;
  duration : option Q;
  class : BlockClass
}.

Definition with_rtime (v : Q) (bf : t) : t :=
  {| id := id bf; rtime := Some v; duration := duration bf; class := class bf |}.

Definition with_duration (v : Q) (bf : t) : t :=
  {| id := id bf; rtime := rtime bf; duration := Some v; class := class bf |}.

(** [blockFormat.jumpPosition.interpolationLength], read. *)
Definition interpolationLength (bf : t) : option Q :=
  match class bf with
  | AudioBlockFormatObjects jp => JumpPosition.interpolationLength jp
  | AudioBlockFormatOther => None
  end.

(** [blockFormat.jumpPosition.interpolationLength = v].  The source only
    assigns under [_has_interpolationLength], where the block is an
    [AudioBlockFormatObjects]. *)
Definition with_interpolationLength (v : Q) (bf : t) : t :=
  match class bf with
  | AudioBlockFormatObjects jp =>
      {| id := id bf; rtime := rtime bf; duration := duration bf;
         class := AudioBlockFormatObjects
                    {| JumpPosition.flag := JumpPosition.flag jp;
                       JumpPosition.interpolationLength := Some v |} |}
  | AudioBlockFormatOther => bf
  end.
End BlockFormat.

Module AudioChannelFormat.
Record t : Type := {
  id : string;
  audioBlockFormats : list BlockFormat.t
}.

Definition with_audioBlockFormats (bs : list BlockFormat.t) (cf : t) : t :=
  {| id := id cf; audioBlockFormats := bs |}.
End AudioChannelFormat.

Module AudioObject.
Record t : Type := {
  id : string;
  start : option Q;
  duration : option Q
}.
End AudioObject.

Module ADM.
Record t : Type := {
  audioChannelFormats : list AudioChannelFormat.t;
  audioObjects : list AudioObject.t
}.

Definition with_audioChannelFormats (cfs : list AudioChannelFormat.t) (adm : t) : t :=
  {| audioChannelFormats := cfs; audioObjects := audioObjects adm |}.
End ADM.

(** ** Warnings and exceptions

    The arguments of each [warnings.warn] and [ValueError] format string. *)

Inductive Direction : Type := expanded | contracted.

Inductive Warning : Type :=
| WarnDuration (direction : Direction) (id : string) (old new : Q)
| WarnContractedInterpolationLength (id : string) (old new : Q)
| WarnReducedInterpolationLength (bf_id obj_id : string)
| WarnDelayedRtime (bf_id obj_id : string) (shift : Q)
| WarnAdvancingEnd (bf_id obj_id : string) (shift : Q)
| WarnAdvancingEndInterpolationLength (bf_id obj_id : string) (shift : Q).

Inductive ValueErrorMessage : Type :=
| AfterBlockEnd (bf_id obj_id : string) (shift : Q)
| AfterInterpolationPeriod (bf_id obj_id : string) (shift : Q)
| BeforeBlockStart (bf_id obj_id : string) (shift : Q).

(** [TypeError] is what Python raises when [None] is compared or added to a
    fraction; [AssertionError] is the [assert False] of
    [_clamp_blockFormat_times]. *)
Inductive Exception : Type :=
| ValueError (msg : ValueErrorMessage)
| TypeError
| AssertionError.

(** ** The effect monad: in-place state, warnings, exceptions *)

Inductive Completion (A : Type) : Type :=
| Normal (a : A)
| Raised (e : Exception).
Arguments Normal {A} a.
Arguments Raised {A} e.

Definition Eff (S A : Type) : Type := S -> Completion A * S * list Warning.

Definition ret {S A} (a : A) : Eff S A := fun s => (Normal a, s, []).

Definition bind {S A B} (m : Eff S A) (k : A -> Eff S B) : Eff S B :=
  fun s =>
    match m s with
    | (Normal a, s1, w1) =>
        match k a s1 with
        | (c, s2, w2) => (c, s2, w1 ++ w2)
        end
    | (Raised e, s1, w1) => (Raised e, s1, w1)
    end.

Notation "x <- m ;; k" := (bind m (fun x => k))
  (at level 100, m at next level, k at level 200, right associativity).
Notation "m ;; k" := (bind m (fun _ => k))
  (at level 100, k at level 200, right associativity).

Definition get {S} : Eff S S := fun s => (Normal s, s, []).
Definition modify {S} (f : S -> S) : Eff S unit := fun s => (Normal tt, f s, []).
Definition warn {S} (w : Warning) : Eff S unit := fun s => (Normal tt, s, [w]).
Definition raise {S A} (e : Exception) : Eff S A := fun s => (Raised e, s, []).

(** A possibly-[None] attribute used as a number. *)
Definition number {S} (v : option Q) : Eff S Q :=
  match v with
  | Some q => ret q
  | None => raise TypeError
  end.

(** Run [m] on a part of the state, writing the part back in place. *)
Definition zoom {S T A} (proj : S -> T) (upd : T -> S -> S) (m : Eff T A) : Eff S A :=
  fun s =>
    match m (proj s) with
    | (c, t', w) => (c, upd t' s, w)
    end.

(** [for x in xs: body], the elements of [xs] being mutated in place. *)
Fixpoint for_each {T} (body : Eff T unit) (xs : list T)
  : Completion unit * list T * list Warning :=
  match xs with
  | [] => (Normal tt, [], [])
  | x :: rest =>
      match body x with
      | (Normal _, x', w) =>
          match for_each body rest with
          | (c, rest', w') => (c, x' :: rest', w ++ w')
          end
      | (Raised e, x', w) => (Raised e, x' :: rest, w)
      end
  end.

(** [for a, b in zip(xs[:-1], xs[1:]): body], where [body] mutates [a] and
    only reads [b]. *)
Fixpoint for_adjacent {T} (body : T -> Eff T unit) (xs : list T)
  : Completion unit * list T * list Warning :=
  match xs with
  | a :: (b :: _) as rest =>
      match body b a with
      | (Normal _, a', w) =>
          match for_adjacent body rest with
          | (c, rest', w') => (c, a' :: rest', w ++ w')
          end
      | (Raised e, a', w) => (Raised e, a' :: rest, w)
      end
  | _ => (Normal tt, xs, [])
  end.

(** [for x in xs: body x], the loop variable being read only. *)
Fixpoint for_in {S X} (xs : list X) (body : X -> Eff S unit) : Eff S unit :=
  match xs with
  | [] => ret tt
  | x :: rest => body x ;; for_in rest body
  end.

(** ** The source functions *)

Definition _has_interpolationLength (blockFormat : BlockFormat.t) : bool :=
  match BlockFormat.class blockFormat with
  | AudioBlockFormatObjects jumpPosition =>
      JumpPosition.flag jumpPosition &&
      match JumpPosition.interpolationLength jumpPosition with
      | Some _ => true
      | None => false
      end
  | AudioBlockFormatOther => false
  end.

(** The body of the loop of [fix_blockFormat_durations], run on [bf_a]. *)
Definition fix_duration (bf_b : BlockFormat.t) : Eff BlockFormat.t unit :=
  bf_a <- get ;;
  match BlockFormat.rtime bf_a, BlockFormat.duration bf_a,
        BlockFormat.rtime bf_b, BlockFormat.duration bf_b with
  | Some rtime_a, Some old_duration, Some rtime_b, Some _ =>
      let new_duration := rtime_b - rtime_a in
      if negb (Qeq_bool old_duration new_duration) then
        warn (WarnDuration
                (if Qltb old_duration new_duration then expanded else contracted)
                (BlockFormat.id bf_a) old_duration new_duration) ;;
        modify (BlockFormat.with_duration new_duration) ;;
        if _has_interpolationLength bf_a then
          il <- number (BlockFormat.interpolationLength bf_a) ;;
          if Qle_bool il old_duration && Qltb new_duration il
          then modify (BlockFormat.with_interpolationLength new_duration)
          else ret tt
        else ret tt
      else ret tt
  | _, _, _, _ => ret tt
  end.

Definition on_audioBlockFormats {A} (m : Eff (list BlockFormat.t) A)
  : Eff AudioChannelFormat.t A :=
  zoom AudioChannelFormat.audioBlockFormats
       AudioChannelFormat.with_audioBlockFormats m.

Definition on_audioChannelFormats {A} (m : Eff (list AudioChannelFormat.t) A)
  : Eff ADM.t A :=
  zoom ADM.audioChannelFormats ADM.with_audioChannelFormats m.

Definition fix_blockFormat_durations : Eff ADM.t unit :=
  on_audioChannelFormats
    (for_each (on_audioBlockFormats (for_adjacent fix_duration))).

(** The body of the loop of [fix_blockFormat_interpolationLengths]. *)
Definition fix_interpolationLength : Eff BlockFormat.t unit :=
  blockFormat <- get ;;
  match BlockFormat.rtime blockFormat, BlockFormat.duration blockFormat with
  | Some _, Some duration =>
      if _has_interpolationLength blockFormat then
        il <- number (BlockFormat.interpolationLength blockFormat) ;;
        if Qltb duration il then
          warn (WarnContractedInterpolationLength
                  (BlockFormat.id blockFormat) il duration) ;;
          modify (BlockFormat.with_interpolationLength duration)
        else ret tt
      else ret tt
  | _, _ => ret tt
  end.

Definition fix_blockFormat_interpolationLengths : Eff ADM.t unit :=
  on_audioChannelFormats
    (for_each (on_audioBlockFormats (for_each fix_interpolationLength))).

Definition _clamp_blockFormat_interpolationLength (audioObject : AudioObject.t)
  : Eff BlockFormat.t unit :=
  blockFormat <- get ;;
  if _has_interpolationLength blockFormat then
    il <- number (BlockFormat.interpolationLength blockFormat) ;;
    obj_duration <- number (AudioObject.duration audioObject) ;;
    if Qltb obj_duration il then
      warn (WarnReducedInterpolationLength
              (BlockFormat.id blockFormat) (AudioObject.id audioObject)) ;;
      modify (BlockFormat.with_interpolationLength obj_duration)
    else ret tt
  else ret tt.

Definition _clamp_blockFormat_start (audioObject : AudioObject.t)
  : Eff BlockFormat.t unit :=
  blockFormat <- get ;;
  rtime <- number (BlockFormat.rtime blockFormat) ;;
  obj_start <- number (AudioObject.start audioObject) ;;
  if Qltb rtime obj_start then
    let shift := obj_start - rtime in
    let bf_id := BlockFormat.id blockFormat in
    let obj_id := AudioObject.id audioObject in
    let delay : Eff BlockFormat.t unit :=
      warn (WarnDelayedRtime bf_id obj_id shift) ;;
      modify (BlockFormat.with_rtime (rtime + shift)) ;;
      blockFormat <- get ;;
      duration <- number (BlockFormat.duration blockFormat) ;;
      modify (BlockFormat.with_duration (duration - shift)) ;;
      blockFormat <- get ;;
      if _has_interpolationLength blockFormat then
        il <- number (BlockFormat.interpolationLength blockFormat) ;;
        modify (BlockFormat.with_interpolationLength (il - shift))
      else ret tt in
    duration <- number (BlockFormat.duration blockFormat) ;;
    if Qle_bool duration shift then
      raise (ValueError (AfterBlockEnd bf_id obj_id shift))
    else if _has_interpolationLength blockFormat then
      il <- number (BlockFormat.interpolationLength blockFormat) ;;
      if Qle_bool il shift then
        raise (ValueError (AfterInterpolationPeriod bf_id obj_id shift))
      else delay
    else delay
  else ret tt.

Definition _clamp_blockFormat_end (audioObject : AudioObject.t)
  : Eff BlockFormat.t unit :=
  blockFormat <- get ;;
  rtime <- number (BlockFormat.rtime blockFormat) ;;
  duration <- number (BlockFormat.duration blockFormat) ;;
  let block_end := rtime + duration in
  obj_start <- number (AudioObject.start audioObject) ;;
  obj_duration <- number (AudioObject.duration audioObject) ;;
  let object_end := obj_start + obj_duration in
  if Qltb object_end block_end then
    let shift := block_end - object_end in
    let bf_id := BlockFormat.id blockFormat in
    let obj_id := AudioObject.id audioObject in
    if Qle_bool duration shift then
      raise (ValueError (BeforeBlockStart bf_id obj_id shift))
    else
      warn (WarnAdvancingEnd bf_id obj_id shift) ;;
      modify (BlockFormat.with_duration (duration - shift)) ;;
      blockFormat <- get ;;
      if _has_interpolationLength blockFormat then
        il <- number (BlockFormat.interpolationLength blockFormat) ;;
        new_duration <- number (BlockFormat.duration blockFormat) ;;
        if Qltb new_duration il then
          warn (WarnAdvancingEndInterpolationLength bf_id obj_id shift) ;;
          modify (BlockFormat.with_interpolationLength new_duration)
        else ret tt
      else ret tt
  else ret tt.

Definition is_None {A} (v : option A) : bool :=
  match v with
  | None => true
  | Some _ => false
  end.

Definition _clamp_blockFormat_times (audioObject : AudioObject.t)
  : Eff BlockFormat.t unit :=
  blockFormat <- get ;;
  if is_None (BlockFormat.rtime blockFormat)
     || is_None (BlockFormat.duration blockFormat) then
    _clamp_blockFormat_interpolationLength audioObject
  else if negb (is_None (BlockFormat.rtime blockFormat))
          || negb (is_None (BlockFormat.duration blockFormat)) then
    _clamp_blockFormat_start audioObject ;;
    _clamp_blockFormat_end audioObject
  else raise AssertionError.

(** Run [m] on the channel format stored at position [c] of
    [adm.audioChannelFormats].  Python holds a reference to the channel
    format; the position stands for that reference, so that two objects
    selecting one channel format mutate the same blocks. *)
Definition on_audioChannelFormat (c : nat) (m : Eff AudioChannelFormat.t unit)
  : Eff ADM.t unit :=
  fun adm =>
    match ADM.audioChannelFormats adm !! c with
    | Some channelFormat =>
        match m channelFormat with
        | (r, channelFormat', w) =>
            (r, ADM.with_audioChannelFormats
                  (<[c := channelFormat']> (ADM.audioChannelFormats adm)) adm, w)
        end
    | None => (Normal tt, adm, [])
    end.

Section Pipeline.

(** Modelled from the spec: [_PackAllocator] and [_ItemSelectionState] of
    [ear.core.select_items] are the external object-to-channel mapping,
    "an opaque iterator of (ChannelFormat, trackSpec)".  For one
    audioObject, [select_pack_mapping] lists the selection states, each
    given by its [channel_allocation]: pairs of a channel format, named by
    its position in [adm.audioChannelFormats], and a track spec.  The
    mapping is decided by pack formats and track UIDs, which this module
    never writes, so it is a fixed function of the audioObject. *)
Variable TrackSpec : Type.
Variable select_pack_mapping : AudioObject.t -> list (list (nat * TrackSpec)).

Definition clamp_audioChannelFormat (audioObject : AudioObject.t) (c : nat)
  : Eff ADM.t unit :=
  on_audioChannelFormat c
    (on_audioBlockFormats (for_each (_clamp_blockFormat_times audioObject))).

Definition fix_blockFormat_times_for_audioObjects : Eff ADM.t unit :=
  adm <- get ;;
  for_in (ADM.audioObjects adm) (fun audioObject =>
    if is_None (AudioObject.start audioObject)
       || is_None (AudioObject.duration audioObject)
    then ret tt
    else
      for_in (select_pack_mapping audioObject) (fun state =>
        for_in state (fun '(channelFormat, _track_spec) =>
          clamp_audioChannelFormat audioObject channelFormat))).

Definition fix_blockFormat_timings : Eff ADM.t unit :=
  fix_blockFormat_durations ;;
  fix_blockFormat_interpolationLengths ;;
  fix_blockFormat_times_for_audioObjects.

End Pipeline.

Arguments fix_blockFormat_times_for_audioObjects {TrackSpec} select_pack_mapping.
Arguments fix_blockFormat_timings {TrackSpec} select_pack_mapping.

(** ** Notions used in the statements *)

(** The interpolation length of a block that has one, in the sense of
    [_has_interpolationLength]. *)
Definition defined_interpolationLength (bf : BlockFormat.t) : option Q :=
  if _has_interpolationLength bf then BlockFormat.interpolationLength bf else None.

(** What [for_adjacent body] makes of [xs] when it completes: every element
    with a successor went through [body], the last one is as it was. *)
Definition adjacent_updated {T} (body : T -> Eff T unit) (xs xs' : list T) : Prop :=
  length xs' = length xs
  /\ forall (i : nat) (a : T),
      xs !! i = Some a ->
      exists a', xs' !! i = Some a'
                 /\ match xs !! S i with
                    | Some b => exists w, body b a = (Normal tt, a', w)
                    | None => a' = a
                    end.

(** The end of [a] is the start of [b], when both are fully timed. *)
Definition joined (a b : BlockFormat.t) : Prop :=
  forall ra da rb db : Q,
    BlockFormat.rtime a = Some ra -> BlockFormat.duration a = Some da ->
    BlockFormat.rtime b = Some rb -> BlockFormat.duration b = Some db ->
    rb == ra + da.

(** Every consecutive pair of a block sequence is [joined]. *)
Definition contiguous (bs : list BlockFormat.t) : Prop :=
  forall (i : nat) (a b : BlockFormat.t),
    bs !! i = Some a -> bs !! S i = Some b -> joined a b.


(** The interpolation length of a fully-timed block is within its duration. *)
Definition interpolation_bounded (b : BlockFormat.t) : Prop :=
  forall r d il : Q,
    BlockFormat.rtime b = Some r -> BlockFormat.duration b = Some d ->
    defined_interpolationLength b = Some il ->
    il <= d.

(** A fully-timed block lies within the span of an object. *)
Definition within (o : AudioObject.t) (b : BlockFormat.t) : Prop :=
  forall s od r d : Q,
    AudioObject.start o = Some s -> AudioObject.duration o = Some od ->
    BlockFormat.rtime b = Some r -> BlockFormat.duration b = Some d ->
    s <= r /\ r + d <= s + od.

(** The interpolation length of a block without full timing is within the
    duration of an object. *)
Definition interpolation_within (o : AudioObject.t) (b : BlockFormat.t) : Prop :=
  forall od il : Q,
    AudioObject.duration o = Some od ->
    BlockFormat.rtime b = None \/ BlockFormat.duration b = None ->
    defined_interpolationLength b = Some il ->
    il <= od.

Definition nonnegative_duration (b : BlockFormat.t) : Prop :=
  forall r d : Q,
    BlockFormat.rtime b = Some r -> BlockFormat.duration b = Some d -> 0 <= d.

(** Consecutive fully-timed blocks are in the order of their rtimes. *)
Definition ordered (bs : list BlockFormat.t) : Prop :=
  forall (i : nat) (a b : BlockFormat.t) (ra da rb db : Q),
    bs !! i = Some a -> bs !! S i = Some b ->
    BlockFormat.rtime a = Some ra -> BlockFormat.duration a = Some da ->
    BlockFormat.rtime b = Some rb -> BlockFormat.duration b = Some db ->
    ra <= rb.

(** [b'] is [b] after a clamp against [o] that completed. *)
Definition clamped (o : AudioObject.t) (b b' : BlockFormat.t) : Prop :=
  exists w, _clamp_blockFormat_times o b = (Normal tt, b', w).

Definition has_span (o : AudioObject.t) : Prop :=
  exists s od, AudioObject.start o = Some s /\ AudioObject.duration o = Some od.

(** [P] holds of every block of the channel format at position [c]. *)
Definition channel_blocks (P : BlockFormat.t -> Prop) (c : nat) (adm : ADM.t) : Prop :=
  forall cf i b,
    ADM.audioChannelFormats adm !! c = Some cf ->
    AudioChannelFormat.audioBlockFormats cf !! i = Some b ->
    P b.

(** What the duration and interpolation length passes leave behind, and
    the containment pass keeps. *)
Definition well_timed (adm : ADM.t) : Prop :=
  (forall c cf, ADM.audioChannelFormats adm !! c = Some cf ->
                contiguous (AudioChannelFormat.audioBlockFormats cf))
  /\ (forall c, channel_blocks nonnegative_duration c adm)
  /\ (forall c, channel_blocks interpolation_bounded c adm).

(** The audioObject selects the channel format at position [c]. *)
Definition selects {TrackSpec}
  (select_pack_mapping : AudioObject.t -> list (list (nat * TrackSpec)))
  (o : AudioObject.t) (c : nat) : Prop :=
  exists k state n track_spec,
    select_pack_mapping o !! k = Some state /\ state !! n = Some (c, track_spec).

(** A property of the scene that no clamp of a channel format against an
    object with a span breaks. *)
Definition clamp_stable (P : ADM.t -> Prop) : Prop :=
  forall o c adm adm' w,
    has_span o -> P adm ->
    clamp_audioChannelFormat o c adm = (Normal tt, adm', w) -> P adm'.

(** The body of the loop over selection states, and the body of the loop
    over audioObjects, of [fix_blockFormat_times_for_audioObjects]. *)
Definition state_body {TrackSpec} (o : AudioObject.t) (state : list (nat * TrackSpec))
  : Eff ADM.t unit :=
  for_in state (fun '(channelFormat, _track_spec) =>
                  clamp_audioChannelFormat o channelFormat).

Definition object_body {TrackSpec}
  (select_pack_mapping : AudioObject.t -> list (list (nat * TrackSpec)))
  (o : AudioObject.t) : Eff ADM.t unit :=
  if is_None (AudioObject.start o) || is_None (AudioObject.duration o)
  then ret tt
  else for_in (select_pack_mapping o) (state_body o).

(** ** Blocks, objects and scenes used as examples *)

Definition timed (rtime duration : Q) (il : option Q) : BlockFormat.t :=
  {| BlockFormat.id := "AB_00031001_00000001";
     BlockFormat.rtime := Some rtime;
     BlockFormat.duration := Some duration;
     BlockFormat.class :=
       AudioBlockFormatObjects
         {| JumpPosition.flag := true; JumpPosition.interpolationLength := il |} |}.

Definition span (start duration : Q) : AudioObject.t :=
  {| AudioObject.id := "AO_1001";
     AudioObject.start := Some start;
     AudioObject.duration := Some duration |}.

Definition untimed (il : option Q) : BlockFormat.t :=
  {| BlockFormat.id := "AB_00031002_00000001";
     BlockFormat.rtime := None;
     BlockFormat.duration := None;
     BlockFormat.class :=
       AudioBlockFormatObjects
         {| JumpPosition.flag := true; JumpPosition.interpolationLength := il |} |}.

(** A scene with one block that has a duration and an interpolation length,
    but no rtime. *)
Definition scene_without_rtime : ADM.t :=
  {| ADM.audioChannelFormats :=
       [ {| AudioChannelFormat.id := "AC_00031001";
            AudioChannelFormat.audioBlockFormats :=
              [ {| BlockFormat.id := "AB_00031001_00000001";
                   BlockFormat.rtime := None;
                   BlockFormat.duration := Some 1;
                   BlockFormat.class :=
                     AudioBlockFormatObjects
                       {| JumpPosition.flag := true;
                          JumpPosition.interpolationLength := Some 5 |} |} ] |} ];
     ADM.audioObjects := [] |}.

(** A scene with one channel format, which every audioObject selects. *)
Definition one_channel (bs : list BlockFormat.t) (objects : list AudioObject.t) : ADM.t :=
  {| ADM.audioChannelFormats :=
       [ {| AudioChannelFormat.id := "AC_00031001";
            AudioChannelFormat.audioBlockFormats := bs |} ];
     ADM.audioObjects := objects |}.

Definition select_first_channel (_ : AudioObject.t) : list (list (nat * unit)) :=
  [[(0%nat, tt)]].

(** Two blocks given out of the order of their rtimes. *)
Definition scene_out_of_order : ADM.t :=
  one_channel [timed 5 1 None; timed 2 10 None] [span 3 100].

(** Two blocks in order, with a gap, sticking out of their object at both
    ends. *)
Definition scene_in_order : ADM.t :=
  one_channel [timed 0 3 (Some 2); timed 5 10 (Some 9)] [span 1 10].

(** Two blocks in order, the last one with a negative duration. *)
Definition scene_negative_duration : ADM.t :=
  one_channel [timed 0 10 None; timed 10 (-7) None] [span 0 5].


(** ** Notions used in the further properties *)

(** A computation that changes its state only when it warns. *)
Definition reports_changes {S A} (m : Eff S A) : Prop :=
  forall s c s', m s = (c, s', []) -> s' = s.

Definition is_ValueError (e : Exception) : Prop :=
  match e with
  | ValueError _ => True
  | _ => False
  end.

(** A computation whose only exceptions are [ValueError]s. *)
Definition raises_only_ValueError {S A} (m : Eff S A) : Prop :=
  forall s e s' w, m s = (Raised e, s', w) -> is_ValueError e.

(** [b'] is [b] up to the values of the fields that are set: the same id,
    the same class and flag, and [rtime], [duration] and the interpolation
    length set in [b'] exactly when they are in [b]. *)
Definition same_shape (b b' : BlockFormat.t) : Prop :=
  BlockFormat.id b' = BlockFormat.id b
  /\ (BlockFormat.rtime b' = None <-> BlockFormat.rtime b = None)
  /\ (BlockFormat.duration b' = None <-> BlockFormat.duration b = None)
  /\ match BlockFormat.class b, BlockFormat.class b' with
     | AudioBlockFormatObjects jp, AudioBlockFormatObjects jp' =>
         JumpPosition.flag jp' = JumpPosition.flag jp
         /\ (JumpPosition.interpolationLength jp' = None
             <-> JumpPosition.interpolationLength jp = None)
     | AudioBlockFormatOther, AudioBlockFormatOther => True
     | _, _ => False
     end.

(** [b'] takes no time that [b] does not take: with full timing it starts
    no earlier and ends no later, and its interpolation length is no
    longer. *)
Definition shrunk (b b' : BlockFormat.t) : Prop :=
  (forall r' d', BlockFormat.rtime b' = Some r' -> BlockFormat.duration b' = Some d' ->
                 exists r d, BlockFormat.rtime b = Some r /\ BlockFormat.duration b = Some d
                             /\ r <= r' /\ r' + d' <= r + d)
  /\ (forall il', defined_interpolationLength b' = Some il' ->
                  exists il, defined_interpolationLength b = Some il /\ il' <= il).

(** The scene [adm'] has the audioObjects, the channel formats and the
    blocks of [adm], each block related by [R] to the block at its place. *)
Definition blockwise (R : BlockFormat.t -> BlockFormat.t -> Prop) (adm adm' : ADM.t) : Prop :=
  ADM.audioObjects adm' = ADM.audioObjects adm
  /\ Forall2
       (fun cf cf' =>
          AudioChannelFormat.id cf' = AudioChannelFormat.id cf
          /\ Forall2 R (AudioChannelFormat.audioBlockFormats cf)
                       (AudioChannelFormat.audioBlockFormats cf'))
       (ADM.audioChannelFormats adm) (ADM.audioChannelFormats adm').

(** What a duration warning says is what happened. *)
Definition truthful_WarnDuration (w : Warning) : Prop :=
  match w with
  | WarnDuration direction _ old new =>
      ~ old == new /\ (direction = expanded <-> old < new)
  | _ => False
  end.

(** A scene that needs no fix: one block within its object. *)
Definition scene_consistent : ADM.t :=
  one_channel [timed 1 4 (Some 1)] [span 1 10].

(** Two contiguous blocks around their object: the first starts before it,
    the second ends after it. *)
Definition scene_contiguous : ADM.t :=
  one_channel [timed 0 5 (Some 3); timed 5 5 (Some 4)] [span 2 6].

(** A scene with a block that ends before its object starts. *)
Definition scene_infeasible : ADM.t :=
  one_channel [timed 0 2 None] [span 5 10].

(** [b'] is [b] with its jump position untouched unless [b] has an
    interpolation length, in the sense of [_has_interpolationLength]. *)
Definition keeps_unused_jumpPosition (b b' : BlockFormat.t) : Prop :=
  _has_interpolationLength b' = _has_interpolationLength b
  /\ (_has_interpolationLength b = false -> BlockFormat.class b' = BlockFormat.class b).

(** A scene with a block whose flag is off and whose interpolation length
    exceeds its duration. *)
Definition scene_flag_off : ADM.t :=
  one_channel
    [ {| BlockFormat.id := "AB_00031001_00000001";
         BlockFormat.rtime := Some 0;
         BlockFormat.duration := Some 4;
         BlockFormat.class :=
           AudioBlockFormatObjects
             {| JumpPosition.flag := false;
                JumpPosition.interpolationLength := Some 9 |} |} ]
    [span 1 2].
(** ** Reasoning about runs *)

Lemma Qltb_lt (x y : Q) : Qltb x y = true <-> x < y.
Proof.
  unfold Qltb. rewrite negb_true_iff, <- not_true_iff_false, Qle_bool_iff.
  split; intros H; lra.
Qed.

Lemma Qltb_ge (x y : Q) : Qltb x y = false <-> y <= x.
Proof.
  unfold Qltb. rewrite negb_false_iff, Qle_bool_iff. tauto.
Qed.

Lemma Qle_bool_gt (x y : Q) : Qle_bool x y = false <-> y < x.
Proof.
  rewrite <- not_true_iff_false, Qle_bool_iff. split; intros H; lra.
Qed.

Lemma Qeq_bool_false (x y : Q) : Qeq_bool x y = false <-> ~ x == y.
Proof.
  rewrite <- not_true_iff_false, Qeq_bool_iff. tauto.
Qed.

Lemma has_interpolationLength_true (bf : BlockFormat.t) :
  _has_interpolationLength bf = true ->
  exists il, BlockFormat.interpolationLength bf = Some il
             /\ BlockFormat.class bf =
                AudioBlockFormatObjects
                  {| JumpPosition.flag := true;
                     JumpPosition.interpolationLength := Some il |}.
Proof.
  unfold _has_interpolationLength, BlockFormat.interpolationLength.
  destruct (BlockFormat.class bf) as [[f [il|]]|]; cbn; try discriminate.
  - destruct f; try discriminate. intros _. now exists il.
  - now rewrite andb_false_r.
Qed.

Lemma defined_interpolationLength_Some (bf : BlockFormat.t) (il : Q) :
  defined_interpolationLength bf = Some il <->
  BlockFormat.class bf =
    AudioBlockFormatObjects
      {| JumpPosition.flag := true; JumpPosition.interpolationLength := Some il |}.
Proof.
  unfold defined_interpolationLength. split.
  - destruct (_has_interpolationLength bf) eqn:E; try discriminate.
    destruct (has_interpolationLength_true bf E) as (il' & H1 & H2).
    rewrite H1. now intros [= <-].
  - unfold _has_interpolationLength, BlockFormat.interpolationLength.
    now intros ->.
Qed.

(** Boolean tests on fractions, as propositions. *)
Ltac qprop :=
  repeat match goal with
    | H : Qltb _ _ = true |- _ => apply Qltb_lt in H
    | H : Qltb _ _ = false |- _ => apply Qltb_ge in H
    | H : Qle_bool _ _ = true |- _ => apply Qle_bool_iff in H
    | H : Qle_bool _ _ = false |- _ => apply Qle_bool_gt in H
    | H : Qeq_bool _ _ = true |- _ => apply Qeq_bool_iff in H
    | H : Qeq_bool _ _ = false |- _ => apply Qeq_bool_false in H
    end.

Ltac qcase1 :=
  match goal with
  | |- context [Qltb ?a ?b] => destruct (Qltb a b) eqn:?
  | |- context [Qle_bool ?a ?b] => destruct (Qle_bool a b) eqn:?
  | |- context [Qeq_bool ?a ?b] => destruct (Qeq_bool a b) eqn:?
  end.

Ltac run :=
  cbn -[Qplus Qminus Qle_bool Qeq_bool Qltb Qlt Qle Qeq] in *.

Ltac qcases := run; repeat (qcase1; run).

(** All shapes of a block: each timing field set or unset, and the class
    with each state of its jump position. *)
Ltac block_shapes bf :=
  destruct bf as [? [?|] [?|] [[[] [?|]]|]].

Ltac unfold_eff :=
  unfold bind, get, number, ret, raise, warn, modify,
    defined_interpolationLength, _has_interpolationLength in *.

(** *** Equations of the loop bodies and of the clamps *)

Lemma fix_duration_skip (bf_b bf_a : BlockFormat.t) :
  BlockFormat.rtime bf_a = None \/ BlockFormat.duration bf_a = None
  \/ BlockFormat.rtime bf_b = None \/ BlockFormat.duration bf_b = None ->
  fix_duration bf_b bf_a = (Normal tt, bf_a, []).
Proof.
  unfold fix_duration; unfold_eff.
  destruct (BlockFormat.rtime bf_a), (BlockFormat.duration bf_a),
    (BlockFormat.rtime bf_b), (BlockFormat.duration bf_b); run; trivial.
  intros [H | [H | [H | H]]]; discriminate.
Qed.

Lemma fix_duration_timed (bf_b bf_a : BlockFormat.t) (ra old rb db : Q) :
  BlockFormat.rtime bf_a = Some ra -> BlockFormat.duration bf_a = Some old ->
  BlockFormat.rtime bf_b = Some rb -> BlockFormat.duration bf_b = Some db ->
  fix_duration bf_b bf_a =
    let new := rb - ra in
    if Qeq_bool old new then (Normal tt, bf_a, [])
    else
      (Normal tt,
       match defined_interpolationLength bf_a with
       | Some il =>
           if Qle_bool il old && Qltb new il
           then BlockFormat.with_interpolationLength new
                  (BlockFormat.with_duration new bf_a)
           else BlockFormat.with_duration new bf_a
       | None => BlockFormat.with_duration new bf_a
       end,
       [WarnDuration (if Qltb old new then expanded else contracted)
          (BlockFormat.id bf_a) old new]).
Proof.
  intros Ha Hda Hb Hdb. unfold fix_duration; unfold_eff.
  rewrite Hb, Hdb. clear Hb Hdb.
  block_shapes bf_a; run; try discriminate.
  all: injection Ha as ->; injection Hda as ->.
  all: qcases; try discriminate; reflexivity.
Qed.

Lemma fix_interpolationLength_eq (bf : BlockFormat.t) :
  fix_interpolationLength bf =
    match BlockFormat.rtime bf, BlockFormat.duration bf,
          defined_interpolationLength bf with
    | Some _, Some d, Some il =>
        if Qltb d il
        then (Normal tt, BlockFormat.with_interpolationLength d bf,
              [WarnContractedInterpolationLength (BlockFormat.id bf) il d])
        else (Normal tt, bf, [])
    | _, _, _ => (Normal tt, bf, [])
    end.
Proof.
  unfold fix_interpolationLength; unfold_eff.
  block_shapes bf; qcases; try discriminate; reflexivity.
Qed.

Lemma clamp_interpolationLength_eq (o : AudioObject.t) (bf : BlockFormat.t) (od : Q) :
  AudioObject.duration o = Some od ->
  _clamp_blockFormat_interpolationLength o bf =
    match defined_interpolationLength bf with
    | Some il =>
        if Qltb od il
        then (Normal tt, BlockFormat.with_interpolationLength od bf,
              [WarnReducedInterpolationLength (BlockFormat.id bf) (AudioObject.id o)])
        else (Normal tt, bf, [])
    | None => (Normal tt, bf, [])
    end.
Proof.
  intros Hod. unfold _clamp_blockFormat_interpolationLength; unfold_eff.
  rewrite Hod. block_shapes bf; qcases; try discriminate; reflexivity.
Qed.

Lemma clamp_start_timed (o : AudioObject.t) (bf : BlockFormat.t) (r d s : Q) :
  BlockFormat.rtime bf = Some r -> BlockFormat.duration bf = Some d ->
  AudioObject.start o = Some s ->
  _clamp_blockFormat_start o bf =
    let shift := s - r in
    let warning := WarnDelayedRtime (BlockFormat.id bf) (AudioObject.id o) shift in
    let delayed :=
      BlockFormat.with_duration (d - shift) (BlockFormat.with_rtime (r + shift) bf) in
    if Qltb r s then
      if Qle_bool d shift then
        (Raised (ValueError (AfterBlockEnd (BlockFormat.id bf) (AudioObject.id o) shift)),
         bf, [])
      else
        match defined_interpolationLength bf with
        | Some il =>
            if Qle_bool il shift then
              (Raised (ValueError (AfterInterpolationPeriod
                                     (BlockFormat.id bf) (AudioObject.id o) shift)),
               bf, [])
            else
              (Normal tt, BlockFormat.with_interpolationLength (il - shift) delayed,
               [warning])
        | None => (Normal tt, delayed, [warning])
        end
    else (Normal tt, bf, []).
Proof.
  intros Hr Hd Hs. unfold _clamp_blockFormat_start; unfold_eff.
  rewrite Hs. clear Hs.
  block_shapes bf; run; try discriminate.
  all: injection Hr as ->; injection Hd as ->.
  all: qcases; try discriminate; reflexivity.
Qed.

Lemma clamp_end_timed (o : AudioObject.t) (bf : BlockFormat.t) (r d s od : Q) :
  BlockFormat.rtime bf = Some r -> BlockFormat.duration bf = Some d ->
  AudioObject.start o = Some s -> AudioObject.duration o = Some od ->
  _clamp_blockFormat_end o bf =
    let block_end := r + d in
    let object_end := s + od in
    let shift := block_end - object_end in
    let advancing := WarnAdvancingEnd (BlockFormat.id bf) (AudioObject.id o) shift in
    let advanced := BlockFormat.with_duration (d - shift) bf in
    if Qltb object_end block_end then
      if Qle_bool d shift then
        (Raised (ValueError (BeforeBlockStart (BlockFormat.id bf) (AudioObject.id o) shift)),
         bf, [])
      else
        match defined_interpolationLength bf with
        | Some il =>
            if Qltb (d - shift) il then
              (Normal tt, BlockFormat.with_interpolationLength (d - shift) advanced,
               [advancing;
                WarnAdvancingEndInterpolationLength
                  (BlockFormat.id bf) (AudioObject.id o) shift])
            else (Normal tt, advanced, [advancing])
        | None => (Normal tt, advanced, [advancing])
        end
    else (Normal tt, bf, []).
Proof.
  intros Hr Hd Hs Hod. unfold _clamp_blockFormat_end; unfold_eff.
  rewrite Hs, Hod. clear Hs Hod.
  block_shapes bf; run; try discriminate.
  all: injection Hr as ->; injection Hd as ->.
  all: qcases; try discriminate; reflexivity.
Qed.

Lemma bind_get {S A} (k : S -> Eff S A) (s : S) : bind get k s = k s s.
Proof.
  unfold bind, get. now destruct (k s s) as [[c s'] w].
Qed.

Lemma clamp_times_untimed (o : AudioObject.t) (bf : BlockFormat.t) :
  BlockFormat.rtime bf = None \/ BlockFormat.duration bf = None ->
  _clamp_blockFormat_times o bf = _clamp_blockFormat_interpolationLength o bf.
Proof.
  unfold _clamp_blockFormat_times. rewrite bind_get.
  destruct (BlockFormat.rtime bf), (BlockFormat.duration bf);
    cbn [is_None orb negb]; trivial.
  intros [H | H]; discriminate.
Qed.

Lemma clamp_times_timed (o : AudioObject.t) (bf : BlockFormat.t) (r d : Q) :
  BlockFormat.rtime bf = Some r -> BlockFormat.duration bf = Some d ->
  _clamp_blockFormat_times o bf =
    match _clamp_blockFormat_start o bf with
    | (Normal _, bf1, w1) =>
        match _clamp_blockFormat_end o bf1 with
        | (c, bf2, w2) => (c, bf2, w1 ++ w2)
        end
    | (Raised e, bf1, w1) => (Raised e, bf1, w1)
    end.
Proof.
  intros Hr Hd. unfold _clamp_blockFormat_times. rewrite bind_get.
  rewrite Hr, Hd. cbn [is_None orb negb]. unfold bind.
  now destruct (_clamp_blockFormat_start o bf) as [[[[]|e] bf1] w1].
Qed.

(** *** Loops *)

Lemma for_each_inv {T} (body : Eff T unit) (xs xs' : list T) (w : list Warning) :
  for_each body xs = (Normal tt, xs', w) ->
  Forall2 (fun x x' => exists w, body x = (Normal tt, x', w)) xs xs'.
Proof.
  revert xs' w. induction xs as [|x rest IH]; intros xs' w; cbn.
  - intros [= <- <-]. constructor.
  - destruct (body x) as [[[[]|e] x'] w1] eqn:Hx; try discriminate.
    destruct (for_each body rest) as [[c rest'] w2] eqn:Hrest.
    intros [= -> <- _]. constructor; eauto.
Qed.

Lemma for_each_complete {T} (body : Eff T unit) (xs : list T) :
  (forall x, x ∈ xs -> exists x' w, body x = (Normal tt, x', w)) ->
  exists xs' w, for_each body xs = (Normal tt, xs', w).
Proof.
  induction xs as [|x rest IH]; intros Hbody; cbn.
  - now eexists _, _.
  - destruct (Hbody x) as (x' & w1 & ->); [left|].
    destruct IH as (rest' & w2 & ->); [|now eexists _, _].
    intros y Hy. apply Hbody. now right.
Qed.

Lemma for_each_noop {T} (body : Eff T unit) (xs : list T) :
  (forall x, x ∈ xs -> body x = (Normal tt, x, [])) ->
  for_each body xs = (Normal tt, xs, []).
Proof.
  induction xs as [|x rest IH]; intros Hbody; cbn; trivial.
  rewrite (Hbody x) by left. rewrite IH; trivial.
  intros y Hy. apply Hbody. now right.
Qed.

Lemma for_each_warnings {T} (P : Warning -> Prop) (body : Eff T unit)
  (xs xs' : list T) (c : Completion unit) (w : list Warning) :
  (forall x c x' w, body x = (c, x', w) -> Forall P w) ->
  for_each body xs = (c, xs', w) -> Forall P w.
Proof.
  intros Hbody. revert xs' c w. induction xs as [|x rest IH]; intros xs' c w; cbn.
  - intros [= _ _ <-]. constructor.
  - destruct (body x) as [[[[]|e] x'] w1] eqn:Hx.
    + destruct (for_each body rest) as [[c2 rest'] w2] eqn:Hrest.
      intros [= _ _ <-]. apply Forall_app; eauto.
    + intros [= _ _ <-]. eauto.
Qed.

Lemma for_adjacent_cons {T} (body : T -> Eff T unit) (a b : T) (rest : list T) :
  for_adjacent body (a :: b :: rest) =
    match body b a with
    | (Normal _, a', w) =>
        match for_adjacent body (b :: rest) with
        | (c, rest', w') => (c, a' :: rest', w ++ w')
        end
    | (Raised e, a', w) => (Raised e, a' :: b :: rest, w)
    end.
Proof. reflexivity. Qed.

Lemma for_adjacent_inv {T} (body : T -> Eff T unit) (xs xs' : list T) (w : list Warning) :
  for_adjacent body xs = (Normal tt, xs', w) -> adjacent_updated body xs xs'.
Proof.
  revert xs' w. induction xs as [|a rest IH]; [|destruct rest as [|b rest]]; intros xs' w.
  - cbn. intros [= <- <-]. split; trivial. intros i a [=].
  - cbn. intros [= <- <-]. split; trivial. intros [|i] x [=]. subst. now exists x.
  - rewrite for_adjacent_cons.
    destruct (body b a) as [[[[]|e] a'] w1] eqn:Hbody; try discriminate.
    destruct (for_adjacent body (b :: rest)) as [[c rest'] w2] eqn:Hrest.
    intros [= -> <- _]. destruct (IH _ _ eq_refl) as [Hlen Hat].
    split; [cbn; now rewrite Hlen|].
    intros [|i] x; cbn.
    + intros [= <-]. eauto.
    + intros Hx. exact (Hat i x Hx).
Qed.

Lemma for_adjacent_complete {T} (body : T -> Eff T unit) (xs : list T) :
  (forall b a, exists a' w, body b a = (Normal tt, a', w)) ->
  exists xs' w, for_adjacent body xs = (Normal tt, xs', w).
Proof.
  intros Hbody. induction xs as [|a rest IH]; [|destruct rest as [|b rest]].
  - now eexists _, _.
  - now eexists _, _.
  - rewrite for_adjacent_cons. destruct (Hbody b a) as (a' & w1 & ->).
    destruct IH as (rest' & w2 & ->). now eexists _, _.
Qed.

Lemma for_adjacent_warnings {T} (P : Warning -> Prop) (body : T -> Eff T unit)
  (xs xs' : list T) (c : Completion unit) (w : list Warning) :
  (forall b a c a' w, body b a = (c, a', w) -> Forall P w) ->
  for_adjacent body xs = (c, xs', w) -> Forall P w.
Proof.
  intros Hbody. revert xs' c w.
  induction xs as [|a rest IH]; [|destruct rest as [|b rest]]; intros xs' c w.
  - cbn. intros [= _ _ <-]. constructor.
  - cbn. intros [= _ _ <-]. constructor.
  - rewrite for_adjacent_cons. destruct (body b a) as [[[[]|e] a'] w1] eqn:Hx.
    + destruct (for_adjacent body (b :: rest)) as [[c2 rest'] w2] eqn:Hrest.
      intros [= _ _ <-]. apply Forall_app; eauto.
    + intros [= _ _ <-]. eauto.
Qed.

Lemma for_adjacent_noop {T} (body : T -> Eff T unit) (xs : list T) :
  (forall i a b, xs !! i = Some a -> xs !! S i = Some b ->
                 body b a = (Normal tt, a, [])) ->
  for_adjacent body xs = (Normal tt, xs, []).
Proof.
  induction xs as [|a rest IH]; [|destruct rest as [|b rest]]; intros Hbody; trivial.
  rewrite for_adjacent_cons. rewrite (Hbody 0%nat a b eq_refl eq_refl).
  rewrite IH; trivial.
  intros i x y Hx Hy. exact (Hbody (S i) x y Hx Hy).
Qed.

(** A pass over the blocks of every channel format. *)
Lemma channel_pass_inv (m : Eff (list BlockFormat.t) unit)
  (adm adm' : ADM.t) (w : list Warning) :
  on_audioChannelFormats (for_each (on_audioBlockFormats m)) adm
    = (Normal tt, adm', w) ->
  ADM.audioObjects adm' = ADM.audioObjects adm
  /\ Forall2
       (fun cf cf' =>
          AudioChannelFormat.id cf' = AudioChannelFormat.id cf
          /\ exists w, m (AudioChannelFormat.audioBlockFormats cf)
                       = (Normal tt, AudioChannelFormat.audioBlockFormats cf', w))
       (ADM.audioChannelFormats adm) (ADM.audioChannelFormats adm').
Proof.
  unfold on_audioChannelFormats, zoom.
  destruct (for_each _ _) as [[c cfs'] w'] eqn:Hloop.
  intros [= -> <- ->]. split; trivial. cbn.
  apply for_each_inv in Hloop.
  eapply Forall2_impl; [exact Hloop|]. cbn.
  intros cf cf' (w1 & H). unfold on_audioBlockFormats, zoom in H.
  destruct (m _) as [[c bs'] w2] eqn:Hm.
  injection H as -> <- ->. split; trivial. now exists w1.
Qed.

Lemma channel_pass_complete (m : Eff (list BlockFormat.t) unit) (adm : ADM.t) :
  (forall bs, exists bs' w, m bs = (Normal tt, bs', w)) ->
  exists adm' w,
    on_audioChannelFormats (for_each (on_audioBlockFormats m)) adm
      = (Normal tt, adm', w).
Proof.
  intros Hm. unfold on_audioChannelFormats, zoom.
  destruct (for_each_complete (on_audioBlockFormats m) (ADM.audioChannelFormats adm))
    as (cfs' & w & ->); [|now eexists _, _].
  intros cf _. unfold on_audioBlockFormats, zoom.
  destruct (Hm (AudioChannelFormat.audioBlockFormats cf)) as (bs' & w & ->).
  now eexists _, _.
Qed.

Lemma channel_pass_noop (m : Eff (list BlockFormat.t) unit) (adm : ADM.t) :
  (forall cf, cf ∈ ADM.audioChannelFormats adm ->
              m (AudioChannelFormat.audioBlockFormats cf)
              = (Normal tt, AudioChannelFormat.audioBlockFormats cf, [])) ->
  on_audioChannelFormats (for_each (on_audioBlockFormats m)) adm
    = (Normal tt, adm, []).
Proof.
  intros Hm. unfold on_audioChannelFormats, zoom.
  rewrite for_each_noop; [now destruct adm|].
  intros cf Hcf. unfold on_audioBlockFormats, zoom. rewrite (Hm cf Hcf).
  now destruct cf.
Qed.

Lemma channel_pass_warnings (P : Warning -> Prop) (m : Eff (list BlockFormat.t) unit)
  (adm adm' : ADM.t) (c : Completion unit) (w : list Warning) :
  (forall bs c bs' w, m bs = (c, bs', w) -> Forall P w) ->
  on_audioChannelFormats (for_each (on_audioBlockFormats m)) adm = (c, adm', w) ->
  Forall P w.
Proof.
  intros Hm. unfold on_audioChannelFormats, zoom.
  destruct (for_each _ _) as [[c1 cfs'] w'] eqn:Hloop.
  intros [= _ _ <-]. eapply for_each_warnings; [|exact Hloop].
  intros cf c2 cf' w2. unfold on_audioBlockFormats, zoom.
  destruct (m _) as [[c3 bs'] w3] eqn:Hbs. intros [= _ _ <-]. eauto.
Qed.

Lemma for_each_lookup {T} (body : Eff T unit) (xs xs' : list T) (w : list Warning)
  (i : nat) (x : T) :
  for_each body xs = (Normal tt, xs', w) ->
  xs !! i = Some x ->
  exists x' wx,
    body x = (Normal tt, x', wx) /\ xs' !! i = Some x'
    /\ forall v, v ∈ wx -> v ∈ w.
Proof.
  revert xs' w i. induction xs as [|y rest IH]; intros xs' w i; cbn.
  - intros _ [=].
  - destruct (body y) as [[[[]|e] y'] w1] eqn:Hy; try discriminate.
    destruct (for_each body rest) as [[c rest'] w2] eqn:Hrest.
    intros [= -> <- <-]. destruct i as [|i]; cbn.
    + intros [= <-]. exists y', w1. repeat split; trivial.
      intros v Hv. apply elem_of_app. now left.
    + intros Hx. destruct (IH _ _ i eq_refl Hx) as (x' & wx & Hbody & Hx' & Hsub).
      exists x', wx. repeat split; trivial.
      intros v Hv. apply elem_of_app. right. now apply Hsub.
Qed.

Lemma channel_pass_lookup (m : Eff (list BlockFormat.t) unit)
  (adm adm' : ADM.t) (w : list Warning) (c : nat) (cf : AudioChannelFormat.t) :
  on_audioChannelFormats (for_each (on_audioBlockFormats m)) adm
    = (Normal tt, adm', w) ->
  ADM.audioChannelFormats adm !! c = Some cf ->
  exists cf' wc,
    m (AudioChannelFormat.audioBlockFormats cf)
      = (Normal tt, AudioChannelFormat.audioBlockFormats cf', wc)
    /\ ADM.audioChannelFormats adm' !! c = Some cf'
    /\ forall v, v ∈ wc -> v ∈ w.
Proof.
  unfold on_audioChannelFormats, zoom.
  destruct (for_each _ _) as [[c1 cfs'] w'] eqn:Hloop.
  intros [= -> <- ->] Hcf. cbn.
  destruct (for_each_lookup _ _ _ _ c cf Hloop Hcf) as (cf' & wc & Hbody & Hcf' & Hsub).
  unfold on_audioBlockFormats, zoom in Hbody.
  destruct (m _) as [[c2 bs'] w2] eqn:Hm.
  injection Hbody as -> <- ->.
  now exists (AudioChannelFormat.with_audioBlockFormats bs' cf), wc.
Qed.


(** ** The clamps of one block *)

(** C2.  Start clamp of a fully-timed block that starts before the object:
    with [shift = object.start - block.rtime], a [ValueError] is raised
    exactly when [shift >= duration], or the block has an interpolation
    length with [interpolationLength <= shift]; otherwise the clamp
    completes with the single "delayed rtime" warning, [rtime + shift],
    [duration - shift] and, when present, [interpolationLength - shift],
    nothing else being changed. *)
Theorem clamp_start_before_object
  (o : AudioObject.t) (bf : BlockFormat.t) (r d s od : Q) :
  BlockFormat.rtime bf = Some r -> BlockFormat.duration bf = Some d ->
  AudioObject.start o = Some s -> AudioObject.duration o = Some od ->
  r < s ->
  let shift := s - r in
  let infeasible :=
    d <= shift
    \/ exists il, defined_interpolationLength bf = Some il /\ il <= shift in
  ((exists msg bf' w,
       _clamp_blockFormat_start o bf = (Raised (ValueError msg), bf', w))
   <-> infeasible)
  /\ (~ infeasible ->
      exists bf',
        _clamp_blockFormat_start o bf
          = (Normal tt, bf',
             [WarnDelayedRtime (BlockFormat.id bf) (AudioObject.id o) shift])
        /\ BlockFormat.id bf' = BlockFormat.id bf
        /\ BlockFormat.rtime bf' = Some (r + shift)
        /\ BlockFormat.duration bf' = Some (d - shift)
        /\ match defined_interpolationLength bf with
           | Some il =>
               BlockFormat.class bf' =
                 AudioBlockFormatObjects
                   {| JumpPosition.flag := true;
                      JumpPosition.interpolationLength := Some (il - shift) |}
           | None => BlockFormat.class bf' = BlockFormat.class bf
           end).
Proof.
  intros Hr Hd Hs Hod Hlt shift infeasible. subst infeasible shift.
  rewrite (clamp_start_timed o bf r d s Hr Hd Hs). cbv zeta.
  apply Qltb_lt in Hlt. rewrite Hlt.
  destruct (Qle_bool d (s - r)) eqn:Hshift; qprop.
  - split; [split|].
    + intros _. now left.
    + intros _. now eexists _, _, _.
    + intros H. exfalso. apply H. now left.
  - destruct (defined_interpolationLength bf) as [il|] eqn:Hil.
    + pose proof (proj1 (defined_interpolationLength_Some _ _) Hil) as Hclass.
      destruct (Qle_bool il (s - r)) eqn:Hilshift; qprop.
      * split; [split|].
        -- intros _. right. now exists il.
        -- intros _. now eexists _, _, _.
        -- intros H. exfalso. apply H. right. now exists il.
      * split; [split|].
        -- intros (msg & bf' & w & [=]).
        -- intros [H | (il' & [= <-] & H)]; lra.
        -- intros _. eexists. split; [reflexivity|].
           unfold BlockFormat.with_interpolationLength. cbn. now rewrite Hclass.
    + split; [split|].
      * intros (msg & bf' & w & [=]).
      * intros [H | (il' & [=] & H)]; lra.
      * intros _. eexists. split; [reflexivity|]. now cbn.
Qed.

Lemma clamp_start_before_object_witness :
  exists bf',
    _clamp_blockFormat_start (span 1 6) (timed 0 10 (Some 9))
      = (Normal tt, bf',
         [WarnDelayedRtime (BlockFormat.id (timed 0 10 (Some 9)))
            (AudioObject.id (span 1 6)) (1 - 0)])
    /\ BlockFormat.id bf' = BlockFormat.id (timed 0 10 (Some 9))
    /\ BlockFormat.rtime bf' = Some (0 + (1 - 0))
    /\ BlockFormat.duration bf' = Some (10 - (1 - 0))
    /\ BlockFormat.class bf' =
         AudioBlockFormatObjects
           {| JumpPosition.flag := true;
              JumpPosition.interpolationLength := Some (9 - (1 - 0)) |}.
Proof.
  refine (proj2 (clamp_start_before_object (span 1 6) (timed 0 10 (Some 9))
                   0 10 1 6 eq_refl eq_refl eq_refl eq_refl _) _).
  - reflexivity.
  - intros [H | (il & [= <-] & H)]; vm_compute in H; now apply H.
Defined.

(** C3.  End clamp of a fully-timed block that ends after the object: with
    [shift = (rtime + duration) - (object.start + object.duration)], a
    [ValueError] is raised exactly when [shift >= duration]; otherwise the
    clamp completes with [duration - shift], and an interpolation length
    greater than the new duration is set to it with a second warning. *)
Theorem clamp_end_after_object
  (o : AudioObject.t) (bf : BlockFormat.t) (r d s od : Q) :
  BlockFormat.rtime bf = Some r -> BlockFormat.duration bf = Some d ->
  AudioObject.start o = Some s -> AudioObject.duration o = Some od ->
  s + od < r + d ->
  let shift := (r + d) - (s + od) in
  let advancing := WarnAdvancingEnd (BlockFormat.id bf) (AudioObject.id o) shift in
  let reducing :=
    WarnAdvancingEndInterpolationLength (BlockFormat.id bf) (AudioObject.id o) shift in
  ((exists msg bf' w,
       _clamp_blockFormat_end o bf = (Raised (ValueError msg), bf', w))
   <-> d <= shift)
  /\ (~ d <= shift ->
      exists bf' w,
        _clamp_blockFormat_end o bf = (Normal tt, bf', w)
        /\ BlockFormat.id bf' = BlockFormat.id bf
        /\ BlockFormat.rtime bf' = Some r
        /\ BlockFormat.duration bf' = Some (d - shift)
        /\ match defined_interpolationLength bf with
           | Some il =>
               (d - shift < il ->
                BlockFormat.class bf' =
                  AudioBlockFormatObjects
                    {| JumpPosition.flag := true;
                       JumpPosition.interpolationLength := Some (d - shift) |}
                /\ w = [advancing; reducing])
               /\ (il <= d - shift ->
                   BlockFormat.class bf' = BlockFormat.class bf /\ w = [advancing])
           | None => BlockFormat.class bf' = BlockFormat.class bf /\ w = [advancing]
           end).
Proof.
  intros Hr Hd Hs Hod Hlt shift advancing reducing.
  subst shift advancing reducing.
  rewrite (clamp_end_timed o bf r d s od Hr Hd Hs Hod). cbv zeta.
  apply Qltb_lt in Hlt. rewrite Hlt.
  destruct (Qle_bool d (r + d - (s + od))) eqn:Hshift; qprop.
  - split; [split|]; trivial.
    + intros _. now eexists _, _, _.
    + intros H. now exfalso.
  - split; [split|].
    + intros (msg & bf' & w & H). exfalso.
      destruct (defined_interpolationLength bf);
        [destruct (Qltb _ _)|]; discriminate.
    + intros H. lra.
    + intros _.
      destruct (defined_interpolationLength bf) as [il|] eqn:Hil.
      * pose proof (proj1 (defined_interpolationLength_Some _ _) Hil) as Hclass.
        destruct (Qltb (d - (r + d - (s + od))) il) eqn:Hnew; qprop.
        -- eexists _, _. split; [reflexivity|].
           unfold BlockFormat.with_interpolationLength. cbn. rewrite Hclass.
           repeat split; trivial; intros; lra.
        -- eexists _, _. split; [reflexivity|]. cbn.
           repeat split; trivial; intros; lra.
      * eexists _, _. split; [reflexivity|]. now cbn.
Qed.

Lemma clamp_end_after_object_witness :
  exists bf' w,
    _clamp_blockFormat_end (span 0 6) (timed 0 10 (Some 9)) = (Normal tt, bf', w)
    /\ BlockFormat.duration bf' = Some (10 - ((0 + 10) - (0 + 6)))
    /\ BlockFormat.interpolationLength bf' = Some (10 - ((0 + 10) - (0 + 6)))
    /\ length w = 2%nat.
Proof.
  destruct (proj2 (clamp_end_after_object (span 0 6) (timed 0 10 (Some 9))
                     0 10 0 6 eq_refl eq_refl eq_refl eq_refl eq_refl))
    as (bf' & w & Hrun & _ & _ & Hd & Hil & _).
  - intros H. vm_compute in H. now apply H.
  - exists bf', w. split; [exact Hrun|]. split; [exact Hd|].
    destruct (Hil eq_refl) as [Hclass ->].
    unfold BlockFormat.interpolationLength. rewrite Hclass. now split.
Defined.

(** C8.  A block whose [rtime] or [duration] is unset, clamped against an
    object with a defined span: only the interpolation length is looked
    at.  One greater than the object's duration is set to it, with one
    warning; [rtime] and [duration] are not modified and nothing is
    raised. *)
Theorem clamp_times_unset_timing
  (o : AudioObject.t) (bf : BlockFormat.t) (s od : Q) :
  AudioObject.start o = Some s -> AudioObject.duration o = Some od ->
  BlockFormat.rtime bf = None \/ BlockFormat.duration bf = None ->
  exists bf' w,
    _clamp_blockFormat_times o bf = (Normal tt, bf', w)
    /\ BlockFormat.id bf' = BlockFormat.id bf
    /\ BlockFormat.rtime bf' = BlockFormat.rtime bf
    /\ BlockFormat.duration bf' = BlockFormat.duration bf
    /\ match defined_interpolationLength bf with
       | Some il =>
           (od < il ->
            BlockFormat.class bf' =
              AudioBlockFormatObjects
                {| JumpPosition.flag := true;
                   JumpPosition.interpolationLength := Some od |}
            /\ w = [WarnReducedInterpolationLength
                      (BlockFormat.id bf) (AudioObject.id o)])
           /\ (il <= od -> bf' = bf /\ w = [])
       | None => bf' = bf /\ w = []
       end.
Proof.
  intros Hs Hod Hunset.
  rewrite (clamp_times_untimed o bf Hunset).
  rewrite (clamp_interpolationLength_eq o bf od Hod).
  destruct (defined_interpolationLength bf) as [il|] eqn:Hil.
  - pose proof (proj1 (defined_interpolationLength_Some _ _) Hil) as Hclass.
    destruct (Qltb od il) eqn:Htest; qprop.
    + eexists _, _. split; [reflexivity|].
      unfold BlockFormat.with_interpolationLength. rewrite Hclass. cbn.
      repeat split; trivial; intros; lra.
    + eexists _, _. split; [reflexivity|].
      repeat split; trivial; intros; lra.
  - eexists _, _. split; [reflexivity|]. now repeat split.
Qed.

Lemma clamp_times_unset_timing_witness :
  exists bf' w,
    _clamp_blockFormat_times (span 0 6) (untimed (Some 9)) = (Normal tt, bf', w)
    /\ BlockFormat.rtime bf' = None
    /\ BlockFormat.duration bf' = None
    /\ BlockFormat.interpolationLength bf' = Some 6
    /\ length w = 1%nat.
Proof.
  destruct (clamp_times_unset_timing (span 0 6) (untimed (Some 9)) 0 6
              eq_refl eq_refl (or_introl eq_refl))
    as (bf' & w & Hrun & _ & Hr & Hd & Hil & _).
  exists bf', w. split; [exact Hrun|].
  destruct (Hil eq_refl) as [Hclass ->].
  unfold BlockFormat.interpolationLength. rewrite Hclass.
  repeat split; assumption.
Defined.

(** C10.  A start clamp or an end clamp that raises has not touched the
    block, and has emitted no warning: in each of the two functions the
    raising branches come before any assignment. *)
Theorem clamp_raises_before_mutation
  (o : AudioObject.t) (bf bf' : BlockFormat.t) (e : Exception) (w : list Warning) :
  _clamp_blockFormat_start o bf = (Raised e, bf', w)
  \/ _clamp_blockFormat_end o bf = (Raised e, bf', w) ->
  bf' = bf /\ w = [].
Proof.
  destruct o as [oid [s|] [od|]].
  all: unfold _clamp_blockFormat_start, _clamp_blockFormat_end; unfold_eff.
  all: block_shapes bf; qcases.
  all: intros [H | H]; now inversion H.
Qed.

Lemma clamp_raises_before_mutation_witness :
  exists e bf',
    _clamp_blockFormat_start (span 5 10) (timed 0 2 None) = (Raised e, bf', [])
    /\ bf' = timed 0 2 None.
Proof.
  eexists _, _. split; [reflexivity|].
  refine (proj1 (clamp_raises_before_mutation (span 5 10) (timed 0 2 None) _ _ _
                   (or_introl eq_refl))).
Defined.

(** The start clamp that succeeded before a raising end clamp is not rolled
    back: the exception leaves the block delayed. *)
Example clamp_times_not_rolled_back :
  exists e w,
    _clamp_blockFormat_times (span 4 0) (timed 0 5 None)
      = (Raised (ValueError e), timed (0 + (4 - 0)) (5 - (4 - 0)) None, w).
Proof.
  now eexists _, _.
Qed.

(** *** The duration pass *)

Lemma fix_duration_result (bf_b bf_a a' : BlockFormat.t) (w : list Warning) :
  fix_duration bf_b bf_a = (Normal tt, a', w) ->
  BlockFormat.id a' = BlockFormat.id bf_a
  /\ BlockFormat.rtime a' = BlockFormat.rtime bf_a
  /\ match BlockFormat.rtime bf_a, BlockFormat.duration bf_a,
           BlockFormat.rtime bf_b, BlockFormat.duration bf_b with
     | Some ra, Some old, Some rb, Some _ =>
         let new := rb - ra in
         (old == new -> a' = bf_a /\ w = [])
         /\ (~ old == new ->
             BlockFormat.duration a' = Some new
             /\ w = [WarnDuration (if Qltb old new then expanded else contracted)
                       (BlockFormat.id bf_a) old new]
             /\ match defined_interpolationLength bf_a with
                | Some il =>
                    (il <= old /\ new < il ->
                     BlockFormat.class a' =
                       AudioBlockFormatObjects
                         {| JumpPosition.flag := true;
                            JumpPosition.interpolationLength := Some new |})
                    /\ (~ (il <= old /\ new < il) ->
                        BlockFormat.class a' = BlockFormat.class bf_a)
                | None => BlockFormat.class a' = BlockFormat.class bf_a
                end)
     | _, _, _, _ => a' = bf_a /\ w = []
     end.
Proof.
  destruct (BlockFormat.rtime bf_a) as [ra|] eqn:Hra;
    [destruct (BlockFormat.duration bf_a) as [old|] eqn:Hold;
     [destruct (BlockFormat.rtime bf_b) as [rb|] eqn:Hrb;
      [destruct (BlockFormat.duration bf_b) as [db|] eqn:Hdb|]|]|].
  2-5: rewrite fix_duration_skip by tauto; intros [= <- <-]; now rewrite ?Hra.
  rewrite (fix_duration_timed bf_b bf_a ra old rb db Hra Hold Hrb Hdb). cbv zeta.
  destruct (Qeq_bool old (rb - ra)) eqn:Hsame; qprop.
  - intros [= <- <-]. repeat split; trivial; intros; tauto.
  - destruct (defined_interpolationLength bf_a) as [il|] eqn:Hil.
    + pose proof (proj1 (defined_interpolationLength_Some _ _) Hil) as Hclass.
      destruct (Qle_bool il old) eqn:H1, (Qltb (rb - ra) il) eqn:H2; qprop; cbn [andb].
      all: intros [= <- <-].
      all: unfold BlockFormat.with_interpolationLength; cbn; rewrite ?Hclass; cbn.
      all: repeat split; trivial; intros; try tauto; try lra.
    + intros [= <- <-]. cbn. repeat split; trivial; intros; tauto.
Qed.

Lemma fix_duration_total (bf_b bf_a : BlockFormat.t) :
  exists a' w, fix_duration bf_b bf_a = (Normal tt, a', w).
Proof.
  destruct (BlockFormat.rtime bf_a) as [ra|] eqn:Hra;
    [destruct (BlockFormat.duration bf_a) as [old|] eqn:Hold;
     [destruct (BlockFormat.rtime bf_b) as [rb|] eqn:Hrb;
      [destruct (BlockFormat.duration bf_b) as [db|] eqn:Hdb|]|]|].
  2-5: rewrite fix_duration_skip by tauto; now eexists _, _.
  rewrite (fix_duration_timed bf_b bf_a ra old rb db Hra Hold Hrb Hdb). cbv zeta.
  destruct (Qeq_bool old (rb - ra)); now eexists _, _.
Qed.


(** A block keeps its [rtime], and whether its [duration] is set. *)
Lemma fix_duration_timing (bf_b bf_a a' : BlockFormat.t) (w : list Warning) :
  fix_duration bf_b bf_a = (Normal tt, a', w) ->
  BlockFormat.rtime a' = BlockFormat.rtime bf_a
  /\ (BlockFormat.duration a' = None <-> BlockFormat.duration bf_a = None).
Proof.
  intros Hrun. apply fix_duration_result in Hrun as (_ & Hr & Hrun).
  split; trivial.
  destruct (BlockFormat.rtime bf_a) as [ra|],
    (BlockFormat.duration bf_a) as [old|] eqn:Hold,
    (BlockFormat.rtime bf_b) as [rb|], (BlockFormat.duration bf_b) as [db|].
  2-16: destruct Hrun as [-> _]; rewrite Hold; tauto.
  destruct (Qeq_dec old (rb - ra)) as [Heq | Hne].
  - destruct (proj1 Hrun Heq) as [-> _]. rewrite Hold. tauto.
  - destruct (proj2 Hrun Hne) as (-> & _). split; discriminate.
Qed.

Lemma adjacent_updated_timing (bs bs' : list BlockFormat.t) (i : nat) (a' : BlockFormat.t) :
  adjacent_updated fix_duration bs bs' ->
  bs' !! i = Some a' ->
  exists a, bs !! i = Some a
            /\ BlockFormat.rtime a' = BlockFormat.rtime a
            /\ (BlockFormat.duration a' = None <-> BlockFormat.duration a = None).
Proof.
  intros [Hlen Hat] Ha'.
  destruct (bs !! i) as [a|] eqn:Ha.
  - exists a. split; trivial. destruct (Hat i a Ha) as (a1 & Ha1 & Hstep).
    rewrite Ha' in Ha1. injection Ha1 as <-.
    destruct (bs !! S i).
    + destruct Hstep as (w & Hrun). now apply fix_duration_timing in Hrun.
    + subst. tauto.
  - apply lookup_ge_None in Ha. apply lookup_lt_Some in Ha'. lia.
Qed.

Lemma durations_contiguous_blocks (bs bs' : list BlockFormat.t) (w : list Warning) :
  for_adjacent fix_duration bs = (Normal tt, bs', w) -> contiguous bs'.
Proof.
  intros Hrun. apply for_adjacent_inv in Hrun.
  intros i a' b' Ha' Hb' ra da rb db Hra Hda Hrb Hdb.
  destruct (adjacent_updated_timing bs bs' i a' Hrun Ha') as (a & Ha & Hra' & Hda').
  destruct (adjacent_updated_timing bs bs' (S i) b' Hrun Hb') as (b & Hb & Hrb' & Hdb').
  destruct Hrun as [_ Hat]. destruct (Hat i a Ha) as (a1 & Ha1 & Hstep).
  rewrite Ha' in Ha1. injection Ha1 as <-. rewrite Hb in Hstep.
  destruct Hstep as (w1 & Hstep). apply fix_duration_result in Hstep as (_ & _ & Hstep).
  rewrite Hra in Hra'. rewrite Hrb in Hrb'. rewrite <- Hra', <- Hrb' in Hstep.
  destruct (BlockFormat.duration a) as [old|] eqn:Hold;
    [|rewrite Hda in Hda'; destruct Hda' as [_ H]; discriminate (H eq_refl)].
  destruct (BlockFormat.duration b) as [old_b|];
    [|rewrite Hdb in Hdb'; destruct Hdb' as [_ H]; discriminate (H eq_refl)].
  cbv zeta in Hstep. destruct (Qeq_dec old (rb - ra)) as [Heq | Hne].
  - destruct (proj1 Hstep Heq) as [-> _]. rewrite Hold in Hda.
    injection Hda as <-. lra.
  - destruct (proj2 Hstep Hne) as (Hnew & _). rewrite Hda in Hnew.
    injection Hnew as ->. lra.
Qed.

Lemma adjacent_updated_last {T} (body : T -> Eff T unit) (xs xs' : list T) :
  adjacent_updated body xs xs' -> last xs' = last xs.
Proof.
  intros [Hlen Hat]. rewrite !last_lookup, Hlen.
  destruct (xs !! pred (length xs)) as [a|] eqn:Ha.
  - destruct (Hat _ a Ha) as (a' & Ha' & Hstep). rewrite Ha'.
    rewrite (proj2 (lookup_ge_None xs (S (pred (length xs))))) in Hstep by lia.
    now subst.
  - apply lookup_ge_None. rewrite Hlen. now apply lookup_ge_None.
Qed.

Lemma durations_pass_runs (adm : ADM.t) :
  exists adm' w, fix_blockFormat_durations adm = (Normal tt, adm', w).
Proof.
  apply channel_pass_complete. intros bs.
  apply for_adjacent_complete, fix_duration_total.
Qed.

Lemma durations_pass_channel (adm adm' : ADM.t) (w : list Warning)
  (c : nat) (cf : AudioChannelFormat.t) :
  fix_blockFormat_durations adm = (Normal tt, adm', w) ->
  ADM.audioChannelFormats adm !! c = Some cf ->
  exists cf',
    ADM.audioChannelFormats adm' !! c = Some cf'
    /\ adjacent_updated fix_duration
         (AudioChannelFormat.audioBlockFormats cf)
         (AudioChannelFormat.audioBlockFormats cf').
Proof.
  intros Hrun Hcf. apply channel_pass_inv in Hrun as [_ Hall].
  destruct (Forall2_lookup_l _ _ _ _ _ Hall Hcf) as (cf' & Hcf' & _ & w1 & Hloop).
  exists cf'. split; trivial. eapply for_adjacent_inv, Hloop.
Qed.

(** ** The duration pass *)

(** C1.  [fix_blockFormat_durations] completes, and afterwards in every
    channel format each consecutive pair of blocks [(a, b)] with [rtime] and
    [duration] set on both has [b.rtime == a.rtime + a.duration]; a block
    followed by a fully-timed block got the duration [b.rtime - a.rtime];
    the last block of each channel format is as it was. *)
Theorem durations_pass_contiguous (adm : ADM.t) :
  exists adm' w,
    fix_blockFormat_durations adm = (Normal tt, adm', w)
    /\ (forall c cf',
           ADM.audioChannelFormats adm' !! c = Some cf' ->
           contiguous (AudioChannelFormat.audioBlockFormats cf'))
    /\ (forall c cf i a b ra old rb db,
           ADM.audioChannelFormats adm !! c = Some cf ->
           AudioChannelFormat.audioBlockFormats cf !! i = Some a ->
           AudioChannelFormat.audioBlockFormats cf !! S i = Some b ->
           BlockFormat.rtime a = Some ra -> BlockFormat.duration a = Some old ->
           BlockFormat.rtime b = Some rb -> BlockFormat.duration b = Some db ->
           exists cf' a' new,
             ADM.audioChannelFormats adm' !! c = Some cf'
             /\ AudioChannelFormat.audioBlockFormats cf' !! i = Some a'
             /\ BlockFormat.duration a' = Some new
             /\ new == rb - ra)
    /\ (forall c cf,
           ADM.audioChannelFormats adm !! c = Some cf ->
           exists cf',
             ADM.audioChannelFormats adm' !! c = Some cf'
             /\ last (AudioChannelFormat.audioBlockFormats cf')
                = last (AudioChannelFormat.audioBlockFormats cf)).
Proof.
  destruct (durations_pass_runs adm) as (adm' & w & Hrun).
  exists adm', w. split; trivial. split; [|split].
  - intros c cf' Hcf'.
    pose proof Hrun as H. apply channel_pass_inv in H as [_ Hall].
    destruct (Forall2_lookup_r _ _ _ _ _ Hall Hcf') as (cf & _ & _ & w1 & Hloop).
    eapply durations_contiguous_blocks, Hloop.
  - intros c cf i a b ra old rb db Hcf Ha Hb Hra Hold Hrb Hdb.
    destruct (durations_pass_channel adm adm' w c cf Hrun Hcf)
      as (cf' & Hcf' & _ & Hat).
    destruct (Hat i a Ha) as (a' & Ha' & Hstep). rewrite Hb in Hstep.
    destruct Hstep as (w1 & Hstep).
    apply fix_duration_result in Hstep as (_ & _ & Hstep).
    rewrite Hra, Hold, Hrb, Hdb in Hstep. cbv zeta in Hstep.
    destruct (Qeq_dec old (rb - ra)) as [Heq | Hne].
    + destruct (proj1 Hstep Heq) as [-> _]. now exists cf', a, old.
    + destruct (proj2 Hstep Hne) as (Hnew & _).
      exists cf', a', (rb - ra). now repeat split.
  - intros c cf Hcf.
    destruct (durations_pass_channel adm adm' w c cf Hrun Hcf)
      as (cf' & Hcf' & Hupd).
    exists cf'. split; trivial. eapply adjacent_updated_last, Hupd.
Qed.



(** *** The interpolation length pass *)

Lemma fix_interpolationLength_total (bf : BlockFormat.t) :
  exists bf' w, fix_interpolationLength bf = (Normal tt, bf', w).
Proof.
  rewrite fix_interpolationLength_eq.
  destruct (BlockFormat.rtime bf), (BlockFormat.duration bf),
    (defined_interpolationLength bf); try destruct (Qltb _ _); now eexists _, _.
Qed.

Lemma with_interpolationLength_defined (v : Q) (bf : BlockFormat.t) :
  _has_interpolationLength bf = true ->
  defined_interpolationLength (BlockFormat.with_interpolationLength v bf) = Some v.
Proof.
  intros H. destruct (has_interpolationLength_true bf H) as (il & _ & Hclass).
  apply defined_interpolationLength_Some.
  unfold BlockFormat.with_interpolationLength. now rewrite Hclass.
Qed.

Lemma defined_interpolationLength_has (bf : BlockFormat.t) (il : Q) :
  defined_interpolationLength bf = Some il -> _has_interpolationLength bf = true.
Proof.
  unfold defined_interpolationLength.
  now destruct (_has_interpolationLength bf).
Qed.

Lemma fix_interpolationLength_bounded (bf bf' : BlockFormat.t) (w : list Warning) :
  fix_interpolationLength bf = (Normal tt, bf', w) -> interpolation_bounded bf'.
Proof.
  rewrite fix_interpolationLength_eq.
  destruct (BlockFormat.rtime bf) as [r|] eqn:Hr,
    (BlockFormat.duration bf) as [d|] eqn:Hd,
    (defined_interpolationLength bf) as [il|] eqn:Hil.
  1: destruct (Qltb d il) eqn:Htest; qprop.
  all: intros [= <- <-]; intros r' d' il' Hr' Hd' Hil'.
  2-9: congruence || (rewrite Hr in Hr'; rewrite Hd in Hd'; rewrite Hil in Hil';
                    injection Hd' as <-; injection Hil' as <-; lra).
  rewrite with_interpolationLength_defined in Hil'
    by (eapply defined_interpolationLength_has, Hil).
  injection Hil' as <-.
  assert (Hd'' : BlockFormat.duration (BlockFormat.with_interpolationLength d bf)
                 = Some d).
  { unfold BlockFormat.with_interpolationLength.
    now destruct (BlockFormat.class bf). }
  rewrite Hd'' in Hd'. injection Hd' as <-. lra.
Qed.

Lemma interpolationLengths_pass_runs (adm : ADM.t) :
  exists adm' w, fix_blockFormat_interpolationLengths adm = (Normal tt, adm', w).
Proof.
  apply channel_pass_complete. intros bs.
  apply for_each_complete. intros b _. apply fix_interpolationLength_total.
Qed.

(** ** The interpolation length pass *)

(** C5, as the claim is worded: a block with [duration] and
    [interpolationLength] set but [rtime] unset is skipped by the pass, and
    keeps an interpolation length greater than its duration. *)
Lemma interpolationLengths_pass_skips_unset_rtime :
  exists adm' w cf' b,
    fix_blockFormat_interpolationLengths scene_without_rtime = (Normal tt, adm', w)
    /\ ADM.audioChannelFormats adm' !! 0%nat = Some cf'
    /\ AudioChannelFormat.audioBlockFormats cf' !! 0%nat = Some b
    /\ BlockFormat.duration b = Some 1
    /\ defined_interpolationLength b = Some 5
    /\ ~ 5 <= 1.
Proof.
  eexists _, _, _, _. split; [reflexivity|]. cbn.
  repeat split. intros H. vm_compute in H. now apply H.
Qed.

(** C5, amended.  [fix_blockFormat_interpolationLengths] completes, and
    afterwards every block with [rtime], [duration] and an interpolation
    length set has [interpolationLength <= duration]: on such a block an
    interpolation length greater than the duration was set to the duration,
    with a warning. *)
Theorem interpolationLengths_pass_bounded (adm : ADM.t) :
  exists adm' w,
    fix_blockFormat_interpolationLengths adm = (Normal tt, adm', w)
    /\ (forall c cf' i b,
           ADM.audioChannelFormats adm' !! c = Some cf' ->
           AudioChannelFormat.audioBlockFormats cf' !! i = Some b ->
           interpolation_bounded b)
    /\ (forall c cf i b r d il,
           ADM.audioChannelFormats adm !! c = Some cf ->
           AudioChannelFormat.audioBlockFormats cf !! i = Some b ->
           BlockFormat.rtime b = Some r -> BlockFormat.duration b = Some d ->
           defined_interpolationLength b = Some il ->
           d < il ->
           exists cf' b',
             ADM.audioChannelFormats adm' !! c = Some cf'
             /\ AudioChannelFormat.audioBlockFormats cf' !! i = Some b'
             /\ BlockFormat.duration b' = Some d
             /\ defined_interpolationLength b' = Some d
             /\ WarnContractedInterpolationLength (BlockFormat.id b) il d ∈ w).
Proof.
  destruct (interpolationLengths_pass_runs adm) as (adm' & w & Hrun).
  exists adm', w. split; trivial. split.
  - intros c cf' i b Hcf' Hb. apply channel_pass_inv in Hrun as [_ Hall].
    destruct (Forall2_lookup_r _ _ _ _ _ Hall Hcf') as (cf & _ & _ & w1 & Hloop).
    apply for_each_inv in Hloop.
    destruct (Forall2_lookup_r _ _ _ _ _ Hloop Hb) as (b0 & _ & w2 & Hstep).
    eapply fix_interpolationLength_bounded, Hstep.
  - intros c cf i b r d il Hcf Hb Hr Hd Hil Hgt.
    destruct (channel_pass_lookup _ _ _ _ c cf Hrun Hcf)
      as (cf' & wc & Hloop & Hcf' & Hwc).
    destruct (for_each_lookup _ _ _ _ i b Hloop Hb) as (b' & wb & Hstep & Hb' & Hwb).
    exists cf', b'. split; trivial. split; trivial.
    rewrite fix_interpolationLength_eq, Hr, Hd, Hil in Hstep.
    rewrite (proj2 (Qltb_lt d il) Hgt) in Hstep. injection Hstep as <- <-.
    split; [|split].
    + unfold BlockFormat.with_interpolationLength.
      now destruct (BlockFormat.class b).
    + eapply with_interpolationLength_defined, defined_interpolationLength_has, Hil.
    + apply Hwc, Hwb. left.
Qed.

(** *** One block clamped against one object *)

Lemma with_interpolationLength_timing (v : Q) (bf : BlockFormat.t) :
  BlockFormat.id (BlockFormat.with_interpolationLength v bf) = BlockFormat.id bf
  /\ BlockFormat.rtime (BlockFormat.with_interpolationLength v bf) = BlockFormat.rtime bf
  /\ BlockFormat.duration (BlockFormat.with_interpolationLength v bf)
     = BlockFormat.duration bf.
Proof.
  unfold BlockFormat.with_interpolationLength. now destruct (BlockFormat.class bf).
Qed.

(** The timing of a fully-timed block after a clamp that completed: the
    start is the later of the two starts, the end the earlier of the two
    ends, and both shifts were shorter than the block. *)
Lemma clamp_times_timed_result
  (o : AudioObject.t) (bf bf' : BlockFormat.t) (w : list Warning) (r d s od : Q) :
  BlockFormat.rtime bf = Some r -> BlockFormat.duration bf = Some d ->
  AudioObject.start o = Some s -> AudioObject.duration o = Some od ->
  _clamp_blockFormat_times o bf = (Normal tt, bf', w) ->
  exists r' d',
    BlockFormat.rtime bf' = Some r' /\ BlockFormat.duration bf' = Some d'
    /\ (r < s /\ s - r < d /\ r' == s \/ s <= r /\ r' = r)
    /\ (s + od < r + d /\ r' < s + od /\ r' + d' == s + od
        \/ r + d <= s + od /\ r' + d' == r + d)
    /\ (s <= r -> r + d <= s + od -> bf' = bf /\ w = [])
    /\ match defined_interpolationLength bf with
       | Some il =>
           exists il', defined_interpolationLength bf' = Some il'
                       /\ (il <= d -> il' <= d')
       | None => defined_interpolationLength bf' = None
       end.
Proof.
  intros Hr Hd Hs Hod. destruct o as [oid ostart odur]. cbn in Hs, Hod. subst.
  block_shapes bf; cbn in Hr, Hd; try discriminate.
  all: injection Hr as ->; injection Hd as ->.
  all: unfold _clamp_blockFormat_times, _clamp_blockFormat_start,
         _clamp_blockFormat_end; unfold_eff; qcases; try discriminate.
  all: qprop; intros [= <- <-]; eexists _, _.
  all: split; [reflexivity|]; split; [reflexivity|].
  all: cbn -[Qplus Qminus Qlt Qle Qeq].
  all: split; [solve [left; repeat split; lra | right; split; [lra|reflexivity]]|].
  all: split; [solve [left; repeat split; lra | right; split; lra]|].
  all: split; [solve [intros; lra | intros; split; reflexivity]|].
  all: solve [reflexivity | eexists; split; [reflexivity|intros; lra]].
Qed.

Lemma clamp_times_untimed_result
  (o : AudioObject.t) (bf bf' : BlockFormat.t) (w : list Warning) (od : Q) :
  AudioObject.duration o = Some od ->
  BlockFormat.rtime bf = None \/ BlockFormat.duration bf = None ->
  _clamp_blockFormat_times o bf = (Normal tt, bf', w) ->
  BlockFormat.rtime bf' = BlockFormat.rtime bf
  /\ BlockFormat.duration bf' = BlockFormat.duration bf
  /\ (forall il', defined_interpolationLength bf' = Some il' ->
                  il' <= od
                  /\ exists il, defined_interpolationLength bf = Some il /\ il' <= il)
  /\ ((forall il, defined_interpolationLength bf = Some il -> il <= od) ->
      bf' = bf /\ w = []).
Proof.
  intros Hod Hunset. rewrite (clamp_times_untimed o bf Hunset).
  rewrite (clamp_interpolationLength_eq o bf od Hod).
  destruct (defined_interpolationLength bf) as [il|] eqn:Hil.
  - destruct (Qltb od il) eqn:Htest; qprop; intros [= <- <-].
    + rewrite with_interpolationLength_defined
        by (eapply defined_interpolationLength_has, Hil).
      split; [apply with_interpolationLength_timing|].
      split; [apply with_interpolationLength_timing|]. split.
      * intros il' [= <-]. split; [lra|]. exists il. split; trivial. lra.
      * intros H. specialize (H il eq_refl). lra.
    + rewrite Hil. repeat split; trivial.
      * injection H as <-. lra.
      * exists il. injection H as <-. split; trivial. lra.
  - intros [= <- <-]. rewrite Hil. repeat split; trivial; discriminate.
Qed.

(** Whether a block is fully timed is not changed by a clamp. *)
Lemma clamped_timing (o : AudioObject.t) (b b' : BlockFormat.t) :
  has_span o -> clamped o b b' ->
  (BlockFormat.rtime b' = None <-> BlockFormat.rtime b = None)
  /\ (BlockFormat.duration b' = None <-> BlockFormat.duration b = None).
Proof.
  intros (s & od & Hs & Hod) (w & Hrun).
  destruct (BlockFormat.rtime b) as [r|] eqn:Hr;
    [destruct (BlockFormat.duration b) as [d|] eqn:Hd|].
  - destruct (clamp_times_timed_result o b b' w r d s od Hr Hd Hs Hod Hrun)
      as (r' & d' & -> & -> & _). split; split; discriminate.
  - destruct (clamp_times_untimed_result o b b' w od Hod (or_intror Hd) Hrun)
      as (-> & -> & _). now rewrite Hr, Hd.
  - destruct (clamp_times_untimed_result o b b' w od Hod (or_introl Hr) Hrun)
      as (-> & -> & _). now rewrite Hr.
Qed.

Lemma clamped_within (o : AudioObject.t) (b b' : BlockFormat.t) :
  clamped o b b' -> within o b'.
Proof.
  intros (w & Hrun) s od r' d' Hs Hod Hr' Hd'.
  assert (Hspan : has_span o) by now exists s, od.
  destruct (clamped_timing o b b' Hspan (ex_intro _ w Hrun)) as [Hrt Hdt].
  destruct (BlockFormat.rtime b) as [r|] eqn:Hr;
    [|rewrite Hr' in Hrt; destruct Hrt as [_ H]; discriminate (H eq_refl)].
  destruct (BlockFormat.duration b) as [d|] eqn:Hd;
    [|rewrite Hd' in Hdt; destruct Hdt as [_ H]; discriminate (H eq_refl)].
  destruct (clamp_times_timed_result o b b' w r d s od Hr Hd Hs Hod Hrun)
    as (r1 & d1 & Hr1 & Hd1 & Hstart & Hend & _).
  rewrite Hr' in Hr1. rewrite Hd' in Hd1.
  injection Hr1 as <-. injection Hd1 as <-.
  destruct Hstart as [(? & ? & ?) | (? & ->)], Hend as [(? & ? & ?) | (? & ?)];
    split; lra.
Qed.

Lemma clamped_interpolation_within (o : AudioObject.t) (b b' : BlockFormat.t) :
  has_span o -> clamped o b b' -> interpolation_within o b'.
Proof.
  intros Hspan (w & Hrun) od il' Hod Hunset' Hil'.
  destruct (clamped_timing o b b' Hspan (ex_intro _ w Hrun)) as [Hrt Hdt].
  assert (Hunset : BlockFormat.rtime b = None \/ BlockFormat.duration b = None) by tauto.
  destruct (clamp_times_untimed_result o b b' w od Hod Hunset Hrun)
    as (_ & _ & Hil & _).
  now apply Hil.
Qed.

Lemma clamped_keeps_within (o o0 : AudioObject.t) (b b' : BlockFormat.t) :
  has_span o -> clamped o b b' -> within o0 b -> within o0 b'.
Proof.
  intros Hspan (w & Hrun) Hin s0 od0 r' d' Hs0 Hod0 Hr' Hd'.
  destruct (clamped_timing o b b' Hspan (ex_intro _ w Hrun)) as [Hrt Hdt].
  destruct Hspan as (s & od & Hs & Hod).
  destruct (BlockFormat.rtime b) as [r|] eqn:Hr;
    [|rewrite Hr' in Hrt; destruct Hrt as [_ H]; discriminate (H eq_refl)].
  destruct (BlockFormat.duration b) as [d|] eqn:Hd;
    [|rewrite Hd' in Hdt; destruct Hdt as [_ H]; discriminate (H eq_refl)].
  destruct (Hin s0 od0 r d Hs0 Hod0 Hr Hd) as [Hlo Hhi].
  destruct (clamp_times_timed_result o b b' w r d s od Hr Hd Hs Hod Hrun)
    as (r1 & d1 & Hr1 & Hd1 & Hstart & Hend & _).
  rewrite Hr' in Hr1. rewrite Hd' in Hd1.
  injection Hr1 as <-. injection Hd1 as <-.
  destruct Hstart as [(? & ? & ?) | (? & ->)], Hend as [(? & ? & ?) | (? & ?)];
    split; lra.
Qed.

Lemma clamped_keeps_interpolation_within (o o0 : AudioObject.t) (b b' : BlockFormat.t) :
  has_span o -> clamped o b b' ->
  interpolation_within o0 b -> interpolation_within o0 b'.
Proof.
  intros Hspan (w & Hrun) Hin od0 il' Hod0 Hunset' Hil'.
  destruct (clamped_timing o b b' Hspan (ex_intro _ w Hrun)) as [Hrt Hdt].
  destruct Hspan as (s & od & Hs & Hod).
  assert (Hunset : BlockFormat.rtime b = None \/ BlockFormat.duration b = None) by tauto.
  destruct (clamp_times_untimed_result o b b' w od Hod Hunset Hrun)
    as (_ & _ & Hil & _).
  destruct (Hil il' Hil') as (_ & il & Hil0 & Hle).
  specialize (Hin od0 il Hod0 Hunset Hil0). lra.
Qed.

Lemma clamped_keeps_nonnegative (o : AudioObject.t) (b b' : BlockFormat.t) :
  has_span o -> clamped o b b' ->
  nonnegative_duration b -> nonnegative_duration b'.
Proof.
  intros Hspan (w & Hrun) Hnn r' d' Hr' Hd'.
  destruct (clamped_timing o b b' Hspan (ex_intro _ w Hrun)) as [Hrt Hdt].
  destruct Hspan as (s & od & Hs & Hod).
  destruct (BlockFormat.rtime b) as [r|] eqn:Hr;
    [|rewrite Hr' in Hrt; destruct Hrt as [_ H]; discriminate (H eq_refl)].
  destruct (BlockFormat.duration b) as [d|] eqn:Hd;
    [|rewrite Hd' in Hdt; destruct Hdt as [_ H]; discriminate (H eq_refl)].
  specialize (Hnn r d Hr Hd).
  destruct (clamp_times_timed_result o b b' w r d s od Hr Hd Hs Hod Hrun)
    as (r1 & d1 & Hr1 & Hd1 & Hstart & Hend & _).
  rewrite Hr' in Hr1. rewrite Hd' in Hd1.
  injection Hr1 as <-. injection Hd1 as <-.
  destruct Hstart as [(? & ? & ?) | (? & ->)], Hend as [(? & ? & ?) | (? & ?)]; lra.
Qed.

Lemma clamped_keeps_bounded (o : AudioObject.t) (b b' : BlockFormat.t) :
  has_span o -> clamped o b b' ->
  interpolation_bounded b -> interpolation_bounded b'.
Proof.
  intros Hspan (w & Hrun) Hb r' d' il' Hr' Hd' Hil'.
  destruct (clamped_timing o b b' Hspan (ex_intro _ w Hrun)) as [Hrt Hdt].
  destruct Hspan as (s & od & Hs & Hod).
  destruct (BlockFormat.rtime b) as [r|] eqn:Hr;
    [|rewrite Hr' in Hrt; destruct Hrt as [_ H]; discriminate (H eq_refl)].
  destruct (BlockFormat.duration b) as [d|] eqn:Hd;
    [|rewrite Hd' in Hdt; destruct Hdt as [_ H]; discriminate (H eq_refl)].
  destruct (clamp_times_timed_result o b b' w r d s od Hr Hd Hs Hod Hrun)
    as (r1 & d1 & Hr1 & Hd1 & _ & _ & _ & Hil).
  rewrite Hr' in Hr1. rewrite Hd' in Hd1.
  injection Hr1 as <-. injection Hd1 as <-.
  destruct (defined_interpolationLength b) as [il|] eqn:Hil0; [|congruence].
  destruct Hil as (il1 & Hil1 & Hle). rewrite Hil' in Hil1. injection Hil1 as <-.
  apply Hle. exact (Hb r d il Hr Hd Hil0).
Qed.

Lemma clamped_keeps_joined (o : AudioObject.t) (a a' b b' : BlockFormat.t) :
  has_span o -> clamped o a a' -> clamped o b b' ->
  nonnegative_duration a -> nonnegative_duration b ->
  joined a b -> joined a' b'.
Proof.
  intros Hspan (wa & Ha) (wb & Hb) Hnna Hnnb Hj ra' da' rb' db' Hra' Hda' Hrb' Hdb'.
  destruct (clamped_timing o a a' Hspan (ex_intro _ wa Ha)) as [Hrta Hdta].
  destruct (clamped_timing o b b' Hspan (ex_intro _ wb Hb)) as [Hrtb Hdtb].
  destruct Hspan as (s & od & Hs & Hod).
  destruct (BlockFormat.rtime a) as [ra|] eqn:Hra;
    [|rewrite Hra' in Hrta; destruct Hrta as [_ H]; discriminate (H eq_refl)].
  destruct (BlockFormat.duration a) as [da|] eqn:Hda;
    [|rewrite Hda' in Hdta; destruct Hdta as [_ H]; discriminate (H eq_refl)].
  destruct (BlockFormat.rtime b) as [rb|] eqn:Hrb;
    [|rewrite Hrb' in Hrtb; destruct Hrtb as [_ H]; discriminate (H eq_refl)].
  destruct (BlockFormat.duration b) as [db|] eqn:Hdb;
    [|rewrite Hdb' in Hdtb; destruct Hdtb as [_ H]; discriminate (H eq_refl)].
  specialize (Hnna ra da Hra Hda). specialize (Hnnb rb db Hrb Hdb).
  specialize (Hj ra da rb db Hra Hda Hrb Hdb).
  destruct (clamp_times_timed_result o a a' wa ra da s od Hra Hda Hs Hod Ha)
    as (ra1 & da1 & Hra1 & Hda1 & Hstarta & Henda & _).
  destruct (clamp_times_timed_result o b b' wb rb db s od Hrb Hdb Hs Hod Hb)
    as (rb1 & db1 & Hrb1 & Hdb1 & Hstartb & Hendb & _).
  rewrite Hra' in Hra1. rewrite Hda' in Hda1. rewrite Hrb' in Hrb1. rewrite Hdb' in Hdb1.
  injection Hra1 as <-. injection Hda1 as <-.
  injection Hrb1 as <-. injection Hdb1 as <-.
  destruct Hstarta as [(? & ? & ?) | (? & ->)], Henda as [(? & ? & ?) | (? & ?)],
    Hstartb as [(? & ? & ?) | (? & ->)], Hendb as [(? & ? & ?) | (? & ?)]; lra.
Qed.

Lemma clamp_times_noop (o : AudioObject.t) (b : BlockFormat.t) :
  has_span o -> within o b -> interpolation_within o b ->
  _clamp_blockFormat_times o b = (Normal tt, b, []).
Proof.
  intros (s & od & Hs & Hod) Hin Hil.
  destruct (BlockFormat.rtime b) as [r|] eqn:Hr;
    [destruct (BlockFormat.duration b) as [d|] eqn:Hd|].
  - destruct (Hin s od r d Hs Hod Hr Hd) as [Hlo Hhi].
    rewrite (clamp_times_timed o b r d Hr Hd).
    rewrite (clamp_start_timed o b r d s Hr Hd Hs). cbv zeta.
    rewrite (proj2 (Qltb_ge r s) Hlo).
    rewrite (clamp_end_timed o b r d s od Hr Hd Hs Hod). cbv zeta.
    now rewrite (proj2 (Qltb_ge (s + od) (r + d)) Hhi).
  - rewrite (clamp_times_untimed o b (or_intror Hd)).
    rewrite (clamp_interpolationLength_eq o b od Hod).
    destruct (defined_interpolationLength b) as [il|] eqn:Hil0; trivial.
    now rewrite (proj2 (Qltb_ge od il) (Hil od il Hod (or_intror Hd) Hil0)).
  - rewrite (clamp_times_untimed o b (or_introl Hr)).
    rewrite (clamp_interpolationLength_eq o b od Hod).
    destruct (defined_interpolationLength b) as [il|] eqn:Hil0; trivial.
    now rewrite (proj2 (Qltb_ge od il) (Hil od il Hod (or_introl Hr) Hil0)).
Qed.

(** *** Sequencing *)

Lemma bind_Normal_inv {S A B} (m : Eff S A) (k : A -> Eff S B)
  (s s' : S) (b : B) (w : list Warning) :
  bind m k s = (Normal b, s', w) ->
  exists a s1 w1 w2,
    m s = (Normal a, s1, w1) /\ k a s1 = (Normal b, s', w2) /\ w = w1 ++ w2.
Proof.
  unfold bind. destruct (m s) as [[[a|e] s1] w1]; try discriminate.
  destruct (k a s1) as [[c s2] w2] eqn:Hk. intros [= -> <- <-].
  now exists a, s1, w1, w2.
Qed.

Lemma for_in_invariant {S X} (P : S -> Prop) (xs : list X) (body : X -> Eff S unit) :
  (forall x s s' w, x ∈ xs -> P s -> body x s = (Normal tt, s', w) -> P s') ->
  forall s s' w, P s -> for_in xs body s = (Normal tt, s', w) -> P s'.
Proof.
  induction xs as [|x rest IH]; intros Hbody s s' w HP; cbn [for_in].
  - now intros [= <- _].
  - intros Hrun. apply bind_Normal_inv in Hrun as ([] & s1 & w1 & w2 & Hx & Hrest & _).
    eapply IH; [|eapply Hbody; [left|exact HP|exact Hx]|exact Hrest].
    intros y t t' v Hy. apply Hbody. now right.
Qed.

(** A property that every iteration keeps and the iteration on [x]
    establishes holds after the loop. *)
Lemma for_in_established {S X} (P : S -> Prop) (xs : list X) (body : X -> Eff S unit)
  (i : nat) (x : X) :
  (forall y s s' w, y ∈ xs -> P s -> body y s = (Normal tt, s', w) -> P s') ->
  (forall s s' w, body x s = (Normal tt, s', w) -> P s') ->
  xs !! i = Some x ->
  forall s s' w, for_in xs body s = (Normal tt, s', w) -> P s'.
Proof.
  intros Hkeep Hest. revert i. induction xs as [|y rest IH]; intros i; [intros [=]|].
  intros Hx s s' w. cbn [for_in]. intros Hrun.
  apply bind_Normal_inv in Hrun as ([] & s1 & w1 & w2 & Hy & Hrest & _).
  assert (Hkeep' : forall z t t' v, z ∈ rest -> P t ->
                                    body z t = (Normal tt, t', v) -> P t').
  { intros z t t' v Hz. apply Hkeep. now right. }
  destruct i as [|i]; cbn in Hx.
  - injection Hx as ->.
    eapply for_in_invariant; [exact Hkeep'|eapply Hest, Hy|exact Hrest].
  - eapply IH; eauto.
Qed.

Lemma for_in_noop {S X} (xs : list X) (body : X -> Eff S unit) (s : S) :
  (forall x, x ∈ xs -> body x s = (Normal tt, s, [])) ->
  for_in xs body s = (Normal tt, s, []).
Proof.
  induction xs as [|x rest IH]; intros Hbody; cbn [for_in]; trivial.
  unfold bind. rewrite (Hbody x) by left. rewrite IH; trivial.
  intros y Hy. apply Hbody. now right.
Qed.

(** *** One channel format clamped against one object *)

Lemma clamp_audioChannelFormat_inv (o : AudioObject.t) (c : nat)
  (adm adm' : ADM.t) (w : list Warning) :
  clamp_audioChannelFormat o c adm = (Normal tt, adm', w) ->
  ADM.audioObjects adm' = ADM.audioObjects adm
  /\ (forall c', c' <> c ->
        ADM.audioChannelFormats adm' !! c' = ADM.audioChannelFormats adm !! c')
  /\ (forall cf', ADM.audioChannelFormats adm' !! c = Some cf' ->
        exists cf, ADM.audioChannelFormats adm !! c = Some cf
                   /\ Forall2 (clamped o)
                        (AudioChannelFormat.audioBlockFormats cf)
                        (AudioChannelFormat.audioBlockFormats cf')).
Proof.
  unfold clamp_audioChannelFormat, on_audioChannelFormat.
  destruct (ADM.audioChannelFormats adm !! c) as [cf|] eqn:Hcf.
  - unfold on_audioBlockFormats, zoom.
    destruct (for_each _ _) as [[r bs'] w1] eqn:Hloop.
    intros [= -> <- <-]. cbn. split; trivial. split.
    + intros c' Hne. now apply list_lookup_insert_ne.
    + intros cf'. rewrite list_lookup_insert_eq by (eapply lookup_lt_Some, Hcf).
      intros [= <-]. exists cf. split; trivial. cbn.
      apply for_each_inv in Hloop. exact Hloop.
  - intros [= <- _]. repeat split; trivial.
    intros cf' Hcf'. congruence.
Qed.

Lemma clamp_keeps_channel_blocks (P : BlockFormat.t -> Prop)
  (o : AudioObject.t) (c c0 : nat) (adm adm' : ADM.t) (w : list Warning) :
  (forall b b', clamped o b b' -> P b -> P b') ->
  clamp_audioChannelFormat o c adm = (Normal tt, adm', w) ->
  channel_blocks P c0 adm -> channel_blocks P c0 adm'.
Proof.
  intros Hkeep Hrun HP cf' i b' Hcf' Hb'.
  apply clamp_audioChannelFormat_inv in Hrun as (_ & Hother & Hsame).
  destruct (decide (c0 = c)) as [-> | Hne].
  - destruct (Hsame cf' Hcf') as (cf & Hcf & Hall).
    destruct (Forall2_lookup_r _ _ _ _ _ Hall Hb') as (b & Hb & Hclamped).
    eapply Hkeep; [exact Hclamped|]. eapply HP; eauto.
  - rewrite (Hother c0 Hne) in Hcf'. eapply HP; eauto.
Qed.

Lemma clamp_establishes_channel_blocks (P : BlockFormat.t -> Prop)
  (o : AudioObject.t) (c : nat) (adm adm' : ADM.t) (w : list Warning) :
  (forall b b', clamped o b b' -> P b') ->
  clamp_audioChannelFormat o c adm = (Normal tt, adm', w) ->
  channel_blocks P c adm'.
Proof.
  intros Hest Hrun cf' i b' Hcf' Hb'.
  apply clamp_audioChannelFormat_inv in Hrun as (_ & _ & Hsame).
  destruct (Hsame cf' Hcf') as (cf & Hcf & Hall).
  destruct (Forall2_lookup_r _ _ _ _ _ Hall Hb') as (b & Hb & Hclamped).
  eapply Hest, Hclamped.
Qed.

Lemma clamped_keeps_contiguous (o : AudioObject.t) (bs bs' : list BlockFormat.t) :
  has_span o -> Forall2 (clamped o) bs bs' ->
  (forall i b, bs !! i = Some b -> nonnegative_duration b) ->
  contiguous bs -> contiguous bs'.
Proof.
  intros Hspan Hall Hnn Hc i a' b' Ha' Hb'.
  destruct (Forall2_lookup_r _ _ _ _ _ Hall Ha') as (a & Ha & Hca).
  destruct (Forall2_lookup_r _ _ _ _ _ Hall Hb') as (b & Hb & Hcb).
  eapply clamped_keeps_joined; eauto.
Qed.

Lemma clamp_keeps_well_timed (o : AudioObject.t) (c : nat)
  (adm adm' : ADM.t) (w : list Warning) :
  has_span o ->
  clamp_audioChannelFormat o c adm = (Normal tt, adm', w) ->
  well_timed adm -> well_timed adm'.
Proof.
  intros Hspan Hrun (Hcont & Hnn & Hb). split; [|split].
  - intros c0 cf' Hcf'.
    pose proof Hrun as Hinv.
    apply clamp_audioChannelFormat_inv in Hinv as (_ & Hother & Hsame).
    destruct (decide (c0 = c)) as [-> | Hne].
    + destruct (Hsame cf' Hcf') as (cf & Hcf & Hall).
      eapply clamped_keeps_contiguous; eauto.
      intros i b. now apply (Hnn c cf i b).
    + rewrite (Hother c0 Hne) in Hcf'. eauto.
  - intros c0. eapply clamp_keeps_channel_blocks; [|exact Hrun|apply Hnn].
    intros b b'. now apply clamped_keeps_nonnegative.
  - intros c0. eapply clamp_keeps_channel_blocks; [|exact Hrun|apply Hb].
    intros b b'. now apply clamped_keeps_bounded.
Qed.

Lemma clamp_audioChannelFormat_noop (o : AudioObject.t) (c : nat) (adm : ADM.t) :
  has_span o ->
  channel_blocks (within o) c adm ->
  channel_blocks (interpolation_within o) c adm ->
  clamp_audioChannelFormat o c adm = (Normal tt, adm, []).
Proof.
  intros Hspan Hin Hil. unfold clamp_audioChannelFormat, on_audioChannelFormat.
  destruct (ADM.audioChannelFormats adm !! c) as [cf|] eqn:Hcf; trivial.
  unfold on_audioBlockFormats, zoom. rewrite for_each_noop.
  - destruct cf as [cid bs]. cbn. rewrite list_insert_id by exact Hcf.
    now destruct adm.
  - intros b Hb. apply list_elem_of_lookup in Hb as [i Hb].
    apply clamp_times_noop; eauto.
Qed.

(** *** The containment pass *)

Lemma not_None_has_span (o : AudioObject.t) :
  is_None (AudioObject.start o) || is_None (AudioObject.duration o) = false ->
  has_span o.
Proof.
  unfold has_span.
  destruct (AudioObject.start o) as [s|], (AudioObject.duration o) as [od|];
    try discriminate.
  intros _. now exists s, od.
Qed.

Lemma has_span_not_None (o : AudioObject.t) :
  has_span o ->
  is_None (AudioObject.start o) || is_None (AudioObject.duration o) = false.
Proof.
  now intros (s & od & -> & ->).
Qed.

Section ContainmentPass.

Context {TrackSpec : Type}.
Variable select_pack_mapping : AudioObject.t -> list (list (nat * TrackSpec)).

Lemma containment_pass_unfold (adm : ADM.t) :
  fix_blockFormat_times_for_audioObjects select_pack_mapping adm
  = for_in (ADM.audioObjects adm) (object_body select_pack_mapping) adm.
Proof.
  unfold fix_blockFormat_times_for_audioObjects. now rewrite bind_get.
Qed.

Lemma state_body_invariant (P : ADM.t -> Prop) (o : AudioObject.t)
  (state : list (nat * TrackSpec)) (s s' : ADM.t) (w : list Warning) :
  clamp_stable P -> has_span o ->
  P s -> state_body o state s = (Normal tt, s', w) -> P s'.
Proof.
  intros Hstable Hspan. apply for_in_invariant.
  intros [c ts] t t' v _ HP Hrun. eapply Hstable; eauto.
Qed.

Lemma object_body_invariant (P : ADM.t -> Prop) (o : AudioObject.t)
  (s s' : ADM.t) (w : list Warning) :
  clamp_stable P ->
  P s -> object_body select_pack_mapping o s = (Normal tt, s', w) -> P s'.
Proof.
  intros Hstable. unfold object_body.
  destruct (is_None _ || is_None _) eqn:Hguard.
  - now intros HP [= <- _].
  - apply not_None_has_span in Hguard. apply for_in_invariant.
    intros state t t' v _. now apply state_body_invariant.
Qed.

Lemma containment_pass_invariant (P : ADM.t -> Prop) (adm adm' : ADM.t)
  (w : list Warning) :
  clamp_stable P -> P adm ->
  fix_blockFormat_times_for_audioObjects select_pack_mapping adm
    = (Normal tt, adm', w) ->
  P adm'.
Proof.
  intros Hstable. rewrite containment_pass_unfold. apply for_in_invariant.
  intros o t t' v _. now apply object_body_invariant.
Qed.

Lemma containment_pass_established (P : ADM.t -> Prop)
  (adm adm' : ADM.t) (w : list Warning) (j : nat) (o : AudioObject.t) (c : nat) :
  clamp_stable P ->
  (forall s s' v, clamp_audioChannelFormat o c s = (Normal tt, s', v) -> P s') ->
  ADM.audioObjects adm !! j = Some o -> has_span o ->
  selects select_pack_mapping o c ->
  fix_blockFormat_times_for_audioObjects select_pack_mapping adm
    = (Normal tt, adm', w) ->
  P adm'.
Proof.
  intros Hstable Hest Ho Hspan (k & state & n & ts & Hstate & Hpair).
  rewrite containment_pass_unfold.
  apply (for_in_established P _ (object_body select_pack_mapping) j o); trivial.
  { intros o' t t' v _. now apply object_body_invariant. }
  intros s s' v. unfold object_body. rewrite (has_span_not_None o Hspan).
  apply (for_in_established P _ (state_body o) k state); trivial.
  { intros st t t' v' _. now apply state_body_invariant. }
  intros t t' v'. unfold state_body.
  apply (for_in_established P state _ n (c, ts)); trivial.
  intros [c' ts'] u u' v'' _ HP Hrun. eapply Hstable; eauto.
Qed.

Lemma containment_pass_noop (adm : ADM.t) :
  (forall j o c,
      ADM.audioObjects adm !! j = Some o -> has_span o ->
      selects select_pack_mapping o c ->
      channel_blocks (within o) c adm
      /\ channel_blocks (interpolation_within o) c adm) ->
  fix_blockFormat_times_for_audioObjects select_pack_mapping adm
    = (Normal tt, adm, []).
Proof.
  intros Hsettled. rewrite containment_pass_unfold. apply for_in_noop.
  intros o Ho. apply list_elem_of_lookup in Ho as [j Ho]. unfold object_body.
  destruct (is_None _ || is_None _) eqn:Hguard; trivial.
  apply not_None_has_span in Hguard. apply for_in_noop.
  intros state Hstate. apply list_elem_of_lookup in Hstate as [k Hstate].
  unfold state_body. apply for_in_noop.
  intros [c ts] Hpair. apply list_elem_of_lookup in Hpair as [n Hpair].
  destruct (Hsettled j o c Ho Hguard) as [Hin Hil]; [now exists k, state, n, ts|].
  now apply clamp_audioChannelFormat_noop.
Qed.

Lemma containment_pass_audioObjects (adm adm' : ADM.t) (w : list Warning) :
  fix_blockFormat_times_for_audioObjects select_pack_mapping adm
    = (Normal tt, adm', w) ->
  ADM.audioObjects adm' = ADM.audioObjects adm.
Proof.
  apply (containment_pass_invariant
           (fun s => ADM.audioObjects s = ADM.audioObjects adm)); trivial.
  intros o c s s' v _ Hs Hrun.
  apply clamp_audioChannelFormat_inv in Hrun as (-> & _). exact Hs.
Qed.

End ContainmentPass.

Lemma within_clamp_stable (o : AudioObject.t) (c : nat) :
  clamp_stable (channel_blocks (within o) c).
Proof.
  intros o' c' adm adm' w Hspan HP Hrun.
  eapply clamp_keeps_channel_blocks; [|exact Hrun|exact HP].
  intros b b'. now apply clamped_keeps_within.
Qed.

Lemma interpolation_within_clamp_stable (o : AudioObject.t) (c : nat) :
  clamp_stable (channel_blocks (interpolation_within o) c).
Proof.
  intros o' c' adm adm' w Hspan HP Hrun.
  eapply clamp_keeps_channel_blocks; [|exact Hrun|exact HP].
  intros b b'. now apply clamped_keeps_interpolation_within.
Qed.

Lemma well_timed_clamp_stable : clamp_stable well_timed.
Proof.
  intros o c adm adm' w Hspan HP Hrun. eapply clamp_keeps_well_timed; eauto.
Qed.

(** ** The containment pass *)


(** *** The pipeline *)

Lemma fix_duration_noop (bf_b bf_a : BlockFormat.t) :
  joined bf_a bf_b -> fix_duration bf_b bf_a = (Normal tt, bf_a, []).
Proof.
  intros Hj.
  destruct (BlockFormat.rtime bf_a) as [ra|] eqn:Hra;
    [destruct (BlockFormat.duration bf_a) as [old|] eqn:Hold;
     [destruct (BlockFormat.rtime bf_b) as [rb|] eqn:Hrb;
      [destruct (BlockFormat.duration bf_b) as [db|] eqn:Hdb|]|]|].
  2-5: apply fix_duration_skip; tauto.
  rewrite (fix_duration_timed bf_b bf_a ra old rb db Hra Hold Hrb Hdb). cbv zeta.
  specialize (Hj ra old rb db Hra Hold Hrb Hdb).
  rewrite (proj2 (Qeq_bool_iff old (rb - ra))); trivial. lra.
Qed.

Lemma fix_interpolationLength_noop (bf : BlockFormat.t) :
  interpolation_bounded bf -> fix_interpolationLength bf = (Normal tt, bf, []).
Proof.
  intros Hb. rewrite fix_interpolationLength_eq.
  destruct (BlockFormat.rtime bf) as [r|] eqn:Hr,
    (BlockFormat.duration bf) as [d|] eqn:Hd,
    (defined_interpolationLength bf) as [il|] eqn:Hil; trivial.
  now rewrite (proj2 (Qltb_ge d il) (Hb r d il Hr Hd Hil)).
Qed.

Lemma fix_interpolationLength_timing (bf bf' : BlockFormat.t) (w : list Warning) :
  fix_interpolationLength bf = (Normal tt, bf', w) ->
  BlockFormat.rtime bf' = BlockFormat.rtime bf
  /\ BlockFormat.duration bf' = BlockFormat.duration bf.
Proof.
  rewrite fix_interpolationLength_eq.
  destruct (BlockFormat.rtime bf) as [r|] eqn:Hr,
    (BlockFormat.duration bf) as [d|] eqn:Hd,
    (defined_interpolationLength bf) as [il|] eqn:Hil.
  1: destruct (Qltb d il).
  all: intros [= <- <-]; rewrite ?Hr, ?Hd; try tauto.
  destruct (with_interpolationLength_timing d bf) as (_ & -> & ->). now rewrite Hr, Hd.
Qed.

Lemma durations_blocks_nonnegative (bs bs' : list BlockFormat.t) (w : list Warning) :
  for_adjacent fix_duration bs = (Normal tt, bs', w) ->
  ordered bs ->
  (forall i b, bs !! i = Some b -> nonnegative_duration b) ->
  forall i b', bs' !! i = Some b' -> nonnegative_duration b'.
Proof.
  intros Hrun Hord Hnn i a' Ha' r' d' Hr' Hd'.
  apply for_adjacent_inv in Hrun as [Hlen Hat].
  destruct (bs !! i) as [a|] eqn:Ha;
    [|apply lookup_ge_None in Ha; apply lookup_lt_Some in Ha'; lia].
  destruct (Hat i a Ha) as (a1 & Ha1 & Hstep).
  rewrite Ha' in Ha1. injection Ha1 as <-.
  destruct (bs !! S i) as [b|] eqn:Hb; [|subst a'; exact (Hnn i a Ha r' d' Hr' Hd')].
  destruct Hstep as (w1 & Hstep).
  apply fix_duration_result in Hstep as (_ & Hrt & Hstep).
  destruct (BlockFormat.rtime a) as [ra|] eqn:Hra;
    [destruct (BlockFormat.duration a) as [old|] eqn:Hold;
     [destruct (BlockFormat.rtime b) as [rb|] eqn:Hrb;
      [destruct (BlockFormat.duration b) as [db|] eqn:Hdb|]|]|].
  2-5: destruct Hstep as [-> _]; exact (Hnn i a Ha r' d' Hr' Hd').
  cbv zeta in Hstep. destruct (Qeq_dec old (rb - ra)) as [Heq | Hne].
  - destruct (proj1 Hstep Heq) as [-> _]. exact (Hnn i a Ha r' d' Hr' Hd').
  - destruct (proj2 Hstep Hne) as (Hnew & _). rewrite Hd' in Hnew.
    injection Hnew as ->.
    specialize (Hord i a b ra old rb db Ha Hb Hra Hold Hrb Hdb). lra.
Qed.

Lemma durations_pass_well_timed (adm adm' : ADM.t) (w : list Warning) :
  fix_blockFormat_durations adm = (Normal tt, adm', w) ->
  (forall c cf, ADM.audioChannelFormats adm !! c = Some cf ->
                ordered (AudioChannelFormat.audioBlockFormats cf)) ->
  (forall c, channel_blocks nonnegative_duration c adm) ->
  ADM.audioObjects adm' = ADM.audioObjects adm
  /\ (forall c cf, ADM.audioChannelFormats adm' !! c = Some cf ->
                   contiguous (AudioChannelFormat.audioBlockFormats cf))
  /\ (forall c, channel_blocks nonnegative_duration c adm').
Proof.
  intros Hrun Hord Hnn. apply channel_pass_inv in Hrun as [Hobj Hall].
  split; trivial. split.
  - intros c cf' Hcf'.
    destruct (Forall2_lookup_r _ _ _ _ _ Hall Hcf') as (cf & _ & _ & w1 & Hloop).
    eapply durations_contiguous_blocks, Hloop.
  - intros c cf' i b' Hcf' Hb'.
    destruct (Forall2_lookup_r _ _ _ _ _ Hall Hcf') as (cf & Hcf & _ & w1 & Hloop).
    eapply durations_blocks_nonnegative; eauto.
    intros i0 b0. now apply (Hnn c cf i0 b0).
Qed.

Lemma interpolationLengths_pass_well_timed (adm adm' : ADM.t) (w : list Warning) :
  fix_blockFormat_interpolationLengths adm = (Normal tt, adm', w) ->
  (forall c cf, ADM.audioChannelFormats adm !! c = Some cf ->
                contiguous (AudioChannelFormat.audioBlockFormats cf)) ->
  (forall c, channel_blocks nonnegative_duration c adm) ->
  ADM.audioObjects adm' = ADM.audioObjects adm /\ well_timed adm'.
Proof.
  intros Hrun Hcont Hnn. apply channel_pass_inv in Hrun as [Hobj Hall].
  split; trivial.
  assert (Hblock : forall c cf' i b',
             ADM.audioChannelFormats adm' !! c = Some cf' ->
             AudioChannelFormat.audioBlockFormats cf' !! i = Some b' ->
             exists cf b w,
               ADM.audioChannelFormats adm !! c = Some cf
               /\ AudioChannelFormat.audioBlockFormats cf !! i = Some b
               /\ fix_interpolationLength b = (Normal tt, b', w)).
  { intros c cf' i b' Hcf' Hb'.
    destruct (Forall2_lookup_r _ _ _ _ _ Hall Hcf') as (cf & Hcf & _ & w1 & Hloop).
    apply for_each_inv in Hloop.
    destruct (Forall2_lookup_r _ _ _ _ _ Hloop Hb') as (b & Hb & w2 & Hstep).
    now exists cf, b, w2. }
  split; [|split].
  - intros c cf' Hcf' i a' b' Ha' Hb'.
    destruct (Hblock c cf' i a' Hcf' Ha') as (cf & a & wa & Hcf & Ha & Hstepa).
    destruct (Hblock c cf' (S i) b' Hcf' Hb') as (cf0 & b & wb & Hcf0 & Hb & Hstepb).
    rewrite Hcf in Hcf0. injection Hcf0 as <-.
    apply fix_interpolationLength_timing in Hstepa as [Hra Hda].
    apply fix_interpolationLength_timing in Hstepb as [Hrb Hdb].
    unfold joined. rewrite Hra, Hda, Hrb, Hdb. exact (Hcont c cf Hcf i a b Ha Hb).
  - intros c cf' i b' Hcf' Hb'.
    destruct (Hblock c cf' i b' Hcf' Hb') as (cf & b & wb & Hcf & Hb & Hstep).
    apply fix_interpolationLength_timing in Hstep as [Hr Hd].
    unfold nonnegative_duration. rewrite Hr, Hd. exact (Hnn c cf i b Hcf Hb).
  - intros c cf' i b' Hcf' Hb'.
    destruct (Hblock c cf' i b' Hcf' Hb') as (cf & b & wb & Hcf & Hb & Hstep).
    eapply fix_interpolationLength_bounded, Hstep.
Qed.

Lemma durations_pass_noop (adm : ADM.t) :
  (forall c cf, ADM.audioChannelFormats adm !! c = Some cf ->
                contiguous (AudioChannelFormat.audioBlockFormats cf)) ->
  fix_blockFormat_durations adm = (Normal tt, adm, []).
Proof.
  intros Hcont. apply channel_pass_noop.
  intros cf Hcf. apply list_elem_of_lookup in Hcf as [c Hcf].
  apply for_adjacent_noop. intros i a b Ha Hb.
  apply fix_duration_noop. exact (Hcont c cf Hcf i a b Ha Hb).
Qed.

Lemma interpolationLengths_pass_noop (adm : ADM.t) :
  (forall c, channel_blocks interpolation_bounded c adm) ->
  fix_blockFormat_interpolationLengths adm = (Normal tt, adm, []).
Proof.
  intros Hb. apply channel_pass_noop.
  intros cf Hcf. apply list_elem_of_lookup in Hcf as [c Hcf].
  apply for_each_noop. intros b Hin. apply list_elem_of_lookup in Hin as [i Hin].
  apply fix_interpolationLength_noop. exact (Hb c cf i b Hcf Hin).
Qed.


(** ** The orchestrator *)

(** C9.  [fix_blockFormat_timings] is one run of the duration pass, then one
    run of the interpolation length pass on its result, then one run of the
    containment pass on the result of that: the first two always complete,
    and the outcome, the scene and the warnings are those of the three runs
    in this order. *)
Theorem timings_runs_each_pass_once {TrackSpec : Type}
  (select_pack_mapping : AudioObject.t -> list (list (nat * TrackSpec)))
  (adm : ADM.t) :
  exists adm1 w1 adm2 w2,
    fix_blockFormat_durations adm = (Normal tt, adm1, w1)
    /\ fix_blockFormat_interpolationLengths adm1 = (Normal tt, adm2, w2)
    /\ forall c adm3 w3,
        fix_blockFormat_times_for_audioObjects select_pack_mapping adm2
          = (c, adm3, w3) ->
        fix_blockFormat_timings select_pack_mapping adm = (c, adm3, w1 ++ w2 ++ w3).
Proof.
  destruct (durations_pass_runs adm) as (adm1 & w1 & HD).
  destruct (interpolationLengths_pass_runs adm1) as (adm2 & w2 & HI).
  exists adm1, w1, adm2, w2. split; trivial. split; trivial.
  intros c adm3 w3 HC. unfold fix_blockFormat_timings, bind.
  now rewrite HD, HI, HC.
Qed.

(** C7, as the claim is worded: on [scene_out_of_order] the first run
    completes, and the second run changes a duration again and warns. *)
Lemma timings_second_run_changes_out_of_order :
  exists adm1 w1 adm2 w2,
    fix_blockFormat_timings select_first_channel scene_out_of_order
      = (Normal tt, adm1, w1)
    /\ fix_blockFormat_timings select_first_channel adm1 = (Normal tt, adm2, w2)
    /\ w2 <> []
    /\ adm2 <> adm1.
Proof.
  eexists _, _, _, _.
  split; [vm_compute; reflexivity|].
  split; [vm_compute; reflexivity|].
  split; discriminate.
Qed.

(** A negative duration also makes the second run warn: here the first
    run shortens the first block to the end of the object and leaves the
    second block, which ends before it, alone; the second run stretches the
    first block back to the rtime of the second, and shortens it again. *)
Example timings_second_run_warns_negative_duration :
  exists adm1 w1 adm2 w2,
    fix_blockFormat_timings select_first_channel scene_negative_duration
      = (Normal tt, adm1, w1)
    /\ fix_blockFormat_timings select_first_channel adm1 = (Normal tt, adm2, w2)
    /\ length w2 = 2%nat.
Proof.
  eexists _, _, _, _.
  split; [vm_compute; reflexivity|].
  split; [vm_compute; reflexivity|].
  reflexivity.
Qed.

(** C7, amended.  On a scene where, in every channel format, consecutive
    fully-timed blocks are in the order of their rtimes and no fully-timed
    block has a negative duration: when [fix_blockFormat_timings] has
    completed, a second run on the resulting scene completes, emits no
    warning and leaves the scene as it is. *)
Theorem timings_idempotent_in_order {TrackSpec : Type}
  (select_pack_mapping : AudioObject.t -> list (list (nat * TrackSpec)))
  (adm adm1 : ADM.t) (w1 : list Warning) :
  (forall c cf, ADM.audioChannelFormats adm !! c = Some cf ->
                ordered (AudioChannelFormat.audioBlockFormats cf)) ->
  (forall c, channel_blocks nonnegative_duration c adm) ->
  fix_blockFormat_timings select_pack_mapping adm = (Normal tt, adm1, w1) ->
  fix_blockFormat_timings select_pack_mapping adm1 = (Normal tt, adm1, []).
Proof.
  intros Hord Hnn Hrun. unfold fix_blockFormat_timings in Hrun.
  apply bind_Normal_inv in Hrun as ([] & admD & wD & wr & HD & Hrun & _).
  apply bind_Normal_inv in Hrun as ([] & admI & wI & wC & HI & HC & _).
  destruct (durations_pass_well_timed adm admD wD HD Hord Hnn)
    as (HobjD & HcontD & HnnD).
  destruct (interpolationLengths_pass_well_timed admD admI wI HI HcontD HnnD)
    as (HobjI & HwtI).
  assert (Hwt : well_timed adm1).
  { eapply (containment_pass_invariant select_pack_mapping well_timed);
      eauto using well_timed_clamp_stable. }
  pose proof (containment_pass_audioObjects select_pack_mapping admI adm1 wC HC)
    as Hobj.
  destruct Hwt as (Hcont & _ & Hbounded).
  unfold fix_blockFormat_timings, bind.
  rewrite (durations_pass_noop adm1 Hcont).
  rewrite (interpolationLengths_pass_noop adm1 Hbounded).
  rewrite containment_pass_noop; trivial.
  intros j o c Ho Hspan Hsel. rewrite Hobj in Ho. split.
  - eapply (containment_pass_established select_pack_mapping
              (channel_blocks (within o) c)); eauto.
    + apply within_clamp_stable.
    + intros t t' v. apply clamp_establishes_channel_blocks.
      intros b0 b1. apply clamped_within.
  - eapply (containment_pass_established select_pack_mapping
              (channel_blocks (interpolation_within o) c)); eauto.
    + apply interpolation_within_clamp_stable.
    + intros t t' v. apply clamp_establishes_channel_blocks.
      intros b0 b1. now apply clamped_interpolation_within.
Qed.

Lemma timings_idempotent_in_order_witness :
  exists adm1 w1,
    fix_blockFormat_timings select_first_channel scene_in_order = (Normal tt, adm1, w1)
    /\ fix_blockFormat_timings select_first_channel adm1 = (Normal tt, adm1, []).
Proof.
  eexists _, _. split; [vm_compute; reflexivity|].
  eapply timings_idempotent_in_order with (adm := scene_in_order).
  - intros [|c] cf; [|intros [=]]. intros [= <-].
    intros [|[|i]] a b ra da rb db; cbn.
    + intros [= <-] [= <-]. cbn. intros [= <-] _ [= <-] _. vm_compute. discriminate.
    + intros _ [=].
    + intros [=].
  - intros [|c] cf; [|intros i b [=]].
    intros [|[|i]] b [= <-]; cbn.
    + intros [= <-] r d. cbn. intros _ [= <-]. vm_compute. discriminate.
    + intros [= <-] r d. cbn. intros _ [= <-]. vm_compute. discriminate.
    + intros [=].
  - vm_compute. reflexivity.
Defined.

(** ** The scenarios of the specification *)

(** Gap closing: [A.duration] becomes 5, with one warning naming old 3 and
    new 5. *)
Example scenario_gap_closing :
  for_adjacent fix_duration [timed 0 3 None; timed 5 2 None]
  = (Normal tt, [timed 0 (5 - 0) None; timed 5 2 None],
     [WarnDuration expanded "AB_00031001_00000001" 3 (5 - 0)]).
Proof. reflexivity. Qed.

(** Interpolation shrink on contraction: the interpolation length follows
    the new duration, with the duration warning only. *)
Example scenario_interpolation_shrink :
  for_adjacent fix_duration [timed 0 10 (Some 8); timed 4 2 None]
  = (Normal tt, [timed 0 (4 - 0) (Some (4 - 0)); timed 4 2 None],
     [WarnDuration contracted "AB_00031001_00000001" 10 (4 - 0)]).
Proof. reflexivity. Qed.

(** End clamp with the secondary reduction of the interpolation length. *)
Example scenario_end_clamp :
  _clamp_blockFormat_times (span 0 6) (timed 0 10 (Some 9))
  = (Normal tt,
     timed 0 (10 - (0 + 10 - (0 + 6))) (Some (10 - (0 + 10 - (0 + 6)))),
     [WarnAdvancingEnd "AB_00031001_00000001" "AO_1001" (0 + 10 - (0 + 6));
      WarnAdvancingEndInterpolationLength
        "AB_00031001_00000001" "AO_1001" (0 + 10 - (0 + 6))]).
Proof. reflexivity. Qed.

(** Fatal shift: a shift of 5 on a block of duration 2. *)
Example scenario_fatal_shift :
  _clamp_blockFormat_times (span 5 10) (timed 0 2 None)
  = (Raised (ValueError (AfterBlockEnd "AB_00031001_00000001" "AO_1001" (5 - 0))),
     timed 0 2 None, []).
Proof. reflexivity. Qed.

(** ** Further properties *)

(** *** Runs with any completion *)

Lemma bind_inv {S A B} (m : Eff S A) (k : A -> Eff S B)
  (s s' : S) (c : Completion B) (w : list Warning) :
  bind m k s = (c, s', w) ->
  (exists e, m s = (Raised e, s', w) /\ c = Raised e)
  \/ (exists a s1 w1 w2,
         m s = (Normal a, s1, w1) /\ k a s1 = (c, s', w2) /\ w = w1 ++ w2).
Proof.
  unfold bind. destruct (m s) as [[[a|e] s1] w1].
  - destruct (k a s1) as [[c2 s2] w2] eqn:Hk. intros [= <- <- <-].
    right. now exists a, s1, w1, w2.
  - intros [= <- <- <-]. left. now exists e.
Qed.

Lemma for_in_any_invariant {S X} (P : S -> Prop) (xs : list X) (body : X -> Eff S unit) :
  (forall x s c s' w, x ∈ xs -> P s -> body x s = (c, s', w) -> P s') ->
  forall s c s' w, P s -> for_in xs body s = (c, s', w) -> P s'.
Proof.
  induction xs as [|x rest IH]; intros Hbody s c s' w HP; cbn [for_in].
  - now intros [= _ <- _].
  - intros Hrun. apply bind_inv in Hrun
      as [(e & Hx & _) | ([] & s1 & w1 & w2 & Hx & Hrest & _)].
    + eapply Hbody; [left|exact HP|exact Hx].
    + eapply IH; [|eapply Hbody; [left|exact HP|exact Hx]|exact Hrest].
      intros y t c' t' v Hy. apply Hbody. now right.
Qed.

Lemma for_each_rel {T} (R : T -> T -> Prop) (body : Eff T unit)
  (xs xs' : list T) (c : Completion unit) (w : list Warning) :
  (forall x, R x x) ->
  (forall x c x' w, body x = (c, x', w) -> R x x') ->
  for_each body xs = (c, xs', w) -> Forall2 R xs xs'.
Proof.
  intros Hrefl Hbody. revert xs' c w.
  induction xs as [|x rest IH]; intros xs' c w; cbn.
  - intros [= _ <- _]. constructor.
  - destruct (body x) as [[[[]|e] x'] w1] eqn:Hx.
    + destruct (for_each body rest) as [[c2 rest'] w2] eqn:Hrest.
      intros [= _ <- _]. constructor; eauto.
    + intros [= _ <- _]. constructor; eauto.
      apply Forall_Forall2_diag, Forall_forall. auto.
Qed.

Lemma for_adjacent_rel {T} (R : T -> T -> Prop) (body : T -> Eff T unit)
  (xs xs' : list T) (c : Completion unit) (w : list Warning) :
  (forall x, R x x) ->
  (forall b a c a' w, body b a = (c, a', w) -> R a a') ->
  for_adjacent body xs = (c, xs', w) -> Forall2 R xs xs'.
Proof.
  intros Hrefl Hbody.
  assert (Hdiag : forall l, Forall2 R l l).
  { intros l. apply Forall_Forall2_diag, Forall_forall. auto. }
  revert xs' c w.
  induction xs as [|a rest IH]; [|destruct rest as [|b rest]]; intros xs' c w.
  - cbn. intros [= _ <- _]. constructor.
  - cbn. intros [= _ <- _]. apply Hdiag.
  - rewrite for_adjacent_cons. destruct (body b a) as [[[[]|e] a'] w1] eqn:Hx.
    + destruct (for_adjacent body (b :: rest)) as [[c2 rest'] w2] eqn:Hrest.
      intros [= _ <- _]. constructor; eauto.
    + intros [= _ <- _]. constructor; eauto.
Qed.

(** *** Changes are reported *)

Lemma reports_changes_bind {S A B} (m : Eff S A) (k : A -> Eff S B) :
  reports_changes m -> (forall a, reports_changes (k a)) ->
  reports_changes (bind m k).
Proof.
  intros Hm Hk s c s' Hrun.
  apply bind_inv in Hrun as [(e & Hx & _) | (a & s1 & w1 & w2 & Hx & Hrest & Hw)].
  - eapply Hm, Hx.
  - symmetry in Hw. apply app_nil in Hw as [-> ->].
    apply Hm in Hx as ->. eapply Hk, Hrest.
Qed.

Lemma reports_changes_get {S} : reports_changes (@get S).
Proof. now intros s c s' [= _ <-]. Qed.

Lemma reports_changes_ret {S A} (a : A) : reports_changes (@ret S A a).
Proof. now intros s c s' [= _ <-]. Qed.

Lemma reports_changes_for_in {S X} (xs : list X) (body : X -> Eff S unit) :
  (forall x, reports_changes (body x)) -> reports_changes (for_in xs body).
Proof.
  intros Hbody. induction xs as [|x rest IH]; cbn [for_in].
  - apply reports_changes_ret.
  - apply reports_changes_bind; auto.
Qed.

Lemma reports_changes_for_each {T} (body : Eff T unit) :
  reports_changes body -> reports_changes (for_each body).
Proof.
  intros Hbody xs. induction xs as [|x rest IH]; intros c xs'; cbn.
  - now intros [= _ <-].
  - destruct (body x) as [[[[]|e] x'] w1] eqn:Hx.
    + destruct (for_each body rest) as [[c2 rest'] w2] eqn:Hrest.
      intros [= _ <- Hw]. apply app_nil in Hw as [-> ->].
      apply Hbody in Hx as ->. now rewrite (IH c2 rest' eq_refl).
    + intros [= _ <- ->]. now apply Hbody in Hx as ->.
Qed.

Lemma reports_changes_for_adjacent {T} (body : T -> Eff T unit) :
  (forall b, reports_changes (body b)) -> reports_changes (for_adjacent body).
Proof.
  intros Hbody xs.
  induction xs as [|a rest IH]; [|destruct rest as [|b rest]]; intros c xs'.
  - cbn. now intros [= _ <-].
  - cbn. now intros [= _ <-].
  - rewrite for_adjacent_cons. destruct (body b a) as [[[[]|e] a'] w1] eqn:Hx.
    + destruct (for_adjacent body (b :: rest)) as [[c2 rest'] w2] eqn:Hrest.
      intros [= _ <- Hw]. apply app_nil in Hw as [-> ->].
      apply Hbody in Hx as ->. now rewrite (IH c2 rest' eq_refl).
    + intros [= _ <- ->]. now apply Hbody in Hx as ->.
Qed.

Lemma reports_changes_on_audioBlockFormats (m : Eff (list BlockFormat.t) unit) :
  reports_changes m -> reports_changes (on_audioBlockFormats m).
Proof.
  intros Hm cf c cf'. unfold on_audioBlockFormats, zoom.
  destruct (m _) as [[c1 bs'] w1] eqn:Hrun. intros [= _ <- ->].
  apply Hm in Hrun as ->. now destruct cf.
Qed.

Lemma reports_changes_on_audioChannelFormats (m : Eff (list AudioChannelFormat.t) unit) :
  reports_changes m -> reports_changes (on_audioChannelFormats m).
Proof.
  intros Hm adm c adm'. unfold on_audioChannelFormats, zoom.
  destruct (m _) as [[c1 cfs'] w1] eqn:Hrun. intros [= _ <- ->].
  apply Hm in Hrun as ->. now destruct adm.
Qed.

Lemma reports_changes_on_audioChannelFormat (i : nat) (m : Eff AudioChannelFormat.t unit) :
  reports_changes m -> reports_changes (on_audioChannelFormat i m).
Proof.
  intros Hm adm c adm'. unfold on_audioChannelFormat.
  destruct (ADM.audioChannelFormats adm !! i) as [cf|] eqn:Hcf.
  - destruct (m cf) as [[c1 cf'] w1] eqn:Hrun. intros [= _ <- ->].
    apply Hm in Hrun as ->. rewrite list_insert_id by exact Hcf. now destruct adm.
  - now intros [= _ <-].
Qed.

(** *** Exceptions *)

Lemma raises_only_ValueError_bind {S A B} (m : Eff S A) (k : A -> Eff S B) :
  raises_only_ValueError m -> (forall a, raises_only_ValueError (k a)) ->
  raises_only_ValueError (bind m k).
Proof.
  intros Hm Hk s e s' w Hrun.
  apply bind_inv in Hrun as [(e' & Hx & [= ->]) | (a & s1 & w1 & w2 & Hx & Hrest & _)].
  - eapply Hm, Hx.
  - eapply Hk, Hrest.
Qed.

Lemma raises_only_ValueError_for_in {S X} (xs : list X) (body : X -> Eff S unit) :
  (forall x, raises_only_ValueError (body x)) ->
  raises_only_ValueError (for_in xs body).
Proof.
  intros Hbody. induction xs as [|x rest IH]; cbn [for_in].
  - intros s e s' w [=].
  - apply raises_only_ValueError_bind; auto.
Qed.

Lemma raises_only_ValueError_for_each {T} (body : Eff T unit) :
  raises_only_ValueError body -> raises_only_ValueError (for_each body).
Proof.
  intros Hbody xs. induction xs as [|x rest IH]; intros e xs' w; cbn.
  - intros [=].
  - destruct (body x) as [[[[]|e'] x'] w1] eqn:Hx.
    + destruct (for_each body rest) as [[c2 rest'] w2] eqn:Hrest.
      intros [= -> _ _]. exact (IH _ _ _ eq_refl).
    + intros [= -> _ _]. eapply Hbody, Hx.
Qed.

Lemma raises_only_ValueError_on_audioBlockFormats (m : Eff (list BlockFormat.t) unit) :
  raises_only_ValueError m -> raises_only_ValueError (on_audioBlockFormats m).
Proof.
  intros Hm cf e cf' w. unfold on_audioBlockFormats, zoom.
  destruct (m _) as [[c1 bs'] w1] eqn:Hrun. intros [= -> _ _]. eapply Hm, Hrun.
Qed.

Lemma raises_only_ValueError_on_audioChannelFormat
  (i : nat) (m : Eff AudioChannelFormat.t unit) :
  raises_only_ValueError m -> raises_only_ValueError (on_audioChannelFormat i m).
Proof.
  intros Hm adm e adm' w. unfold on_audioChannelFormat.
  destruct (ADM.audioChannelFormats adm !! i) as [cf|].
  - destruct (m cf) as [[c1 cf'] w1] eqn:Hrun. intros [= -> _ _]. eapply Hm, Hrun.
  - intros [=].
Qed.

(** *** The loop bodies and the clamp, with any completion *)

Ltac block_runs :=
  unfold fix_duration, fix_interpolationLength, _clamp_blockFormat_times,
    _clamp_blockFormat_interpolationLength, _clamp_blockFormat_start,
    _clamp_blockFormat_end; unfold_eff.

Lemma fix_duration_reports_changes (bf_b : BlockFormat.t) :
  reports_changes (fix_duration bf_b).
Proof.
  intros bf c bf'. block_runs.
  destruct (BlockFormat.rtime bf_b), (BlockFormat.duration bf_b);
    block_shapes bf; qcases; intros H; now inversion H.
Qed.

Lemma fix_interpolationLength_reports_changes :
  reports_changes fix_interpolationLength.
Proof.
  intros bf c bf'. block_runs.
  block_shapes bf; qcases; intros H; now inversion H.
Qed.

Lemma clamp_times_reports_changes (o : AudioObject.t) :
  reports_changes (_clamp_blockFormat_times o).
Proof.
  intros bf c bf'. destruct o as [oid [s|] [od|]]; block_runs.
  all: block_shapes bf; qcases; intros H; now inversion H.
Qed.

Lemma fix_duration_never_raises (bf_b : BlockFormat.t) :
  raises_only_ValueError (fix_duration bf_b).
Proof.
  intros bf e bf' w.
  destruct (fix_duration_total bf_b bf) as (a' & w' & ->). discriminate.
Qed.

Lemma fix_interpolationLength_never_raises :
  raises_only_ValueError fix_interpolationLength.
Proof.
  intros bf e bf' w.
  destruct (fix_interpolationLength_total bf) as (a' & w' & ->). discriminate.
Qed.

Lemma clamp_times_raises_only_ValueError (o : AudioObject.t) :
  has_span o -> raises_only_ValueError (_clamp_blockFormat_times o).
Proof.
  intros (s & od & Hs & Hod) bf e bf' w.
  destruct o as [oid ostart odur]. cbn in Hs, Hod. subst. block_runs.
  block_shapes bf; qcases; intros H; inversion H; exact I.
Qed.

Lemma same_shape_refl (b : BlockFormat.t) : same_shape b b.
Proof.
  unfold same_shape. destruct (BlockFormat.class b); tauto.
Qed.

Lemma same_shape_trans (b1 b2 b3 : BlockFormat.t) :
  same_shape b1 b2 -> same_shape b2 b3 -> same_shape b1 b3.
Proof.
  unfold same_shape. intros (Hid & Hr & Hd & Hc) (Hid' & Hr' & Hd' & Hc').
  split; [congruence|]. split; [tauto|]. split; [tauto|].
  destruct (BlockFormat.class b1), (BlockFormat.class b2), (BlockFormat.class b3);
    try tauto.
  destruct Hc as [Hf ?], Hc' as [Hf' ?]. split; [congruence|tauto].
Qed.

Ltac shape_goal :=
  intros H; inversion H; subst; unfold same_shape; cbn;
  repeat split; trivial; try discriminate; tauto.

Lemma fix_duration_same_shape (bf_b bf bf' : BlockFormat.t)
  (c : Completion unit) (w : list Warning) :
  fix_duration bf_b bf = (c, bf', w) -> same_shape bf bf'.
Proof.
  block_runs.
  destruct (BlockFormat.rtime bf_b), (BlockFormat.duration bf_b);
    block_shapes bf; qcases; shape_goal.
Qed.

Lemma fix_interpolationLength_same_shape (bf bf' : BlockFormat.t)
  (c : Completion unit) (w : list Warning) :
  fix_interpolationLength bf = (c, bf', w) -> same_shape bf bf'.
Proof.
  block_runs. block_shapes bf; qcases; shape_goal.
Qed.

Lemma clamp_times_same_shape (o : AudioObject.t) (bf bf' : BlockFormat.t)
  (c : Completion unit) (w : list Warning) :
  _clamp_blockFormat_times o bf = (c, bf', w) -> same_shape bf bf'.
Proof.
  destruct o as [oid [s|] [od|]]; block_runs.
  all: block_shapes bf; qcases; shape_goal.
Qed.

Lemma shrunk_refl (b : BlockFormat.t) : shrunk b b.
Proof.
  split.
  - intros r d Hr Hd. exists r, d. repeat split; trivial; lra.
  - intros il Hil. exists il. split; trivial. lra.
Qed.

Lemma shrunk_trans (b1 b2 b3 : BlockFormat.t) :
  shrunk b1 b2 -> shrunk b2 b3 -> shrunk b1 b3.
Proof.
  intros [Ht Hil] [Ht' Hil']. split.
  - intros r3 d3 Hr3 Hd3.
    destruct (Ht' r3 d3 Hr3 Hd3) as (r2 & d2 & Hr2 & Hd2 & ? & ?).
    destruct (Ht r2 d2 Hr2 Hd2) as (r1 & d1 & Hr1 & Hd1 & ? & ?).
    exists r1, d1. repeat split; trivial; lra.
  - intros il3 Hil3.
    destruct (Hil' il3 Hil3) as (il2 & Hil2 & ?).
    destruct (Hil il2 Hil2) as (il1 & Hil1 & ?).
    exists il1. split; trivial. lra.
Qed.

Lemma clamp_times_shrunk (o : AudioObject.t) (bf bf' : BlockFormat.t)
  (c : Completion unit) (w : list Warning) :
  has_span o ->
  _clamp_blockFormat_times o bf = (c, bf', w) -> shrunk bf bf'.
Proof.
  intros (s & od & Hs & Hod).
  destruct o as [oid ostart odur]. cbn in Hs, Hod. subst. block_runs.
  block_shapes bf; qcases; qprop; intros H; inversion H; subst; clear H.
  all: unfold shrunk, defined_interpolationLength, _has_interpolationLength; cbn.
  all: split;
    [ intros r' d' Hr' Hd';
      first [ discriminate
            | injection Hr' as <-; injection Hd' as <-;
              eexists _, _; split; [reflexivity|]; split; [reflexivity|]; split; lra ]
    | intros il' Hil';
      first [ discriminate
            | injection Hil' as <-; eexists; split; [reflexivity|]; lra ] ].
Qed.

(** *** Scenes related block by block *)

Lemma blockwise_refl (R : BlockFormat.t -> BlockFormat.t -> Prop) (adm : ADM.t) :
  (forall b, R b b) -> blockwise R adm adm.
Proof.
  intros Hrefl. split; trivial.
  apply Forall_Forall2_diag, Forall_forall. intros cf _. split; trivial.
  apply Forall_Forall2_diag, Forall_forall. auto.
Qed.

Lemma blockwise_trans (R : BlockFormat.t -> BlockFormat.t -> Prop)
  (adm1 adm2 adm3 : ADM.t) :
  (forall x y z, R x y -> R y z -> R x z) ->
  blockwise R adm1 adm2 -> blockwise R adm2 adm3 -> blockwise R adm1 adm3.
Proof.
  intros Htrans [Ho H12] [Ho' H23]. split; [congruence|].
  eapply Forall2_trans; [|exact H12|exact H23]. cbn.
  intros cf1 cf2 cf3 [Hid Hbs] [Hid' Hbs']. split; [congruence|].
  eapply Forall2_trans; [|exact Hbs|exact Hbs']. exact Htrans.
Qed.

Lemma channel_pass_blockwise (R : BlockFormat.t -> BlockFormat.t -> Prop)
  (m : Eff (list BlockFormat.t) unit)
  (adm adm' : ADM.t) (c : Completion unit) (w : list Warning) :
  (forall b, R b b) ->
  (forall bs c bs' w, m bs = (c, bs', w) -> Forall2 R bs bs') ->
  on_audioChannelFormats (for_each (on_audioBlockFormats m)) adm = (c, adm', w) ->
  blockwise R adm adm'.
Proof.
  intros Hrefl Hm. unfold on_audioChannelFormats, zoom.
  destruct (for_each _ _) as [[c1 cfs'] w1] eqn:Hloop.
  intros [= _ <- _]. split; trivial. cbn.
  eapply for_each_rel; [| |exact Hloop].
  - intros cf. split; trivial. apply Forall_Forall2_diag, Forall_forall. auto.
  - intros cf c2 cf' w2. unfold on_audioBlockFormats, zoom.
    destruct (m _) as [[c3 bs'] w3] eqn:Hbs. intros [= _ <- _]. cbn. eauto.
Qed.

Lemma clamp_audioChannelFormat_blockwise (R : BlockFormat.t -> BlockFormat.t -> Prop)
  (o : AudioObject.t) (i : nat)
  (adm adm' : ADM.t) (c : Completion unit) (w : list Warning) :
  (forall b, R b b) ->
  (forall b c b' w, _clamp_blockFormat_times o b = (c, b', w) -> R b b') ->
  clamp_audioChannelFormat o i adm = (c, adm', w) ->
  blockwise R adm adm'.
Proof.
  intros Hrefl Hbody. unfold clamp_audioChannelFormat, on_audioChannelFormat.
  destruct (ADM.audioChannelFormats adm !! i) as [cf|] eqn:Hcf.
  - unfold on_audioBlockFormats, zoom.
    destruct (for_each _ _) as [[c1 bs'] w1] eqn:Hloop.
    intros [= _ <- _]. split; trivial. cbn.
    rewrite <- (list_insert_id (ADM.audioChannelFormats adm) i cf Hcf) at 1.
    apply Forall2_insert.
    + apply Forall_Forall2_diag, Forall_forall. intros cf0 _. split; trivial.
      apply Forall_Forall2_diag, Forall_forall. auto.
    + split; trivial. cbn. eapply for_each_rel; eauto.
  - intros [= _ <- _]. now apply blockwise_refl.
Qed.

Lemma containment_pass_blockwise {TrackSpec : Type}
  (select_pack_mapping : AudioObject.t -> list (list (nat * TrackSpec)))
  (R : BlockFormat.t -> BlockFormat.t -> Prop)
  (adm adm' : ADM.t) (c : Completion unit) (w : list Warning) :
  (forall b, R b b) ->
  (forall x y z, R x y -> R y z -> R x z) ->
  (forall o b c b' w,
      has_span o -> _clamp_blockFormat_times o b = (c, b', w) -> R b b') ->
  fix_blockFormat_times_for_audioObjects select_pack_mapping adm = (c, adm', w) ->
  blockwise R adm adm'.
Proof.
  intros Hrefl Htrans Hbody. rewrite containment_pass_unfold.
  apply (for_in_any_invariant (blockwise R adm)); [|now apply blockwise_refl].
  intros o s c1 s' w1 _ Hs. unfold object_body.
  destruct (is_None _ || is_None _) eqn:Hguard.
  - now intros [= _ <- _].
  - apply not_None_has_span in Hguard.
    apply (for_in_any_invariant (blockwise R adm)); [|exact Hs].
    intros state t c2 t' w2 _ Ht. unfold state_body.
    apply (for_in_any_invariant (blockwise R adm)); [|exact Ht].
    intros [i ts] u c3 u' w3 _ Hu Hrun.
    eapply blockwise_trans; [exact Htrans|exact Hu|].
    eapply clamp_audioChannelFormat_blockwise; eauto.
Qed.

Lemma timings_blockwise {TrackSpec : Type}
  (select_pack_mapping : AudioObject.t -> list (list (nat * TrackSpec)))
  (R : BlockFormat.t -> BlockFormat.t -> Prop)
  (adm adm' : ADM.t) (c : Completion unit) (w : list Warning) :
  (forall b, R b b) ->
  (forall x y z, R x y -> R y z -> R x z) ->
  (forall bf_b b c b' w, fix_duration bf_b b = (c, b', w) -> R b b') ->
  (forall b c b' w, fix_interpolationLength b = (c, b', w) -> R b b') ->
  (forall o b c b' w,
      has_span o -> _clamp_blockFormat_times o b = (c, b', w) -> R b b') ->
  fix_blockFormat_timings select_pack_mapping adm = (c, adm', w) ->
  blockwise R adm adm'.
Proof.
  intros Hrefl Htrans HD HI HC Hrun.
  assert (HpassD : forall s c s' w,
             fix_blockFormat_durations s = (c, s', w) -> blockwise R s s').
  { intros s c1 s' w1. apply channel_pass_blockwise; trivial.
    intros bs c2 bs' w2. apply for_adjacent_rel; trivial. }
  assert (HpassI : forall s c s' w,
             fix_blockFormat_interpolationLengths s = (c, s', w) -> blockwise R s s').
  { intros s c1 s' w1. apply channel_pass_blockwise; trivial.
    intros bs c2 bs' w2. apply for_each_rel; trivial. }
  unfold fix_blockFormat_timings in Hrun.
  apply bind_inv in Hrun as [(e & H1 & _) | ([] & s1 & w1 & w2 & H1 & Hrun & _)];
    [eauto|].
  apply HpassD in H1.
  apply bind_inv in Hrun as [(e & H2 & _) | ([] & s2 & w3 & w4 & H2 & H3 & _)].
  - eapply blockwise_trans; eauto.
  - apply HpassI in H2.
    eapply blockwise_trans; [exact Htrans|exact H1|].
    eapply blockwise_trans; [exact Htrans|exact H2|].
    eapply containment_pass_blockwise; eauto.
Qed.

(** *** Facts about the example scenes *)

Lemma one_channel_blocks (P : BlockFormat.t -> Prop)
  (bs : list BlockFormat.t) (objects : list AudioObject.t) (c : nat) :
  Forall P bs -> channel_blocks P c (one_channel bs objects).
Proof.
  intros HP cf i b. destruct c as [|c]; cbn; [|intros [=]].
  intros [= <-] Hb. cbn in Hb. eapply Forall_lookup_1; eauto.
Qed.



Lemma scene_consistent_well_timed : well_timed scene_consistent.
Proof.
  split; [|split].
  - intros [|c] cf; [|intros [=]]. intros [= <-] [|i] a b; cbn.
    + intros _ [=].
    + intros [=].
  - intros c. apply one_channel_blocks. constructor; [|constructor].
    intros r d _ [= <-]. vm_compute. discriminate.
  - intros c. apply one_channel_blocks. constructor; [|constructor].
    intros r d il _ [= <-] [= <-]. vm_compute. discriminate.
Qed.

Lemma scene_contiguous_well_timed : well_timed scene_contiguous.
Proof.
  split; [|split].
  - intros [|c] cf; [|intros [=]]. intros [= <-] [|[|i]] a b; cbn.
    + intros [= <-] [= <-] ra da rb db. cbn. intros [= <-] [= <-] [= <-] _.
      vm_compute. reflexivity.
    + intros _ [=].
    + intros [=].
  - intros c. apply one_channel_blocks. constructor; [|constructor; [|constructor]].
    + intros r d _ [= <-]. vm_compute. discriminate.
    + intros r d _ [= <-]. vm_compute. discriminate.
  - intros c. apply one_channel_blocks. constructor; [|constructor; [|constructor]].
    + intros r d il _ [= <-] [= <-]. vm_compute. discriminate.
    + intros r d il _ [= <-] [= <-]. vm_compute. discriminate.
Qed.

Lemma scene_consistent_within (j : nat) (o : AudioObject.t) (c : nat) :
  ADM.audioObjects scene_consistent !! j = Some o ->
  channel_blocks (within o) c scene_consistent
  /\ channel_blocks (interpolation_within o) c scene_consistent.
Proof.
  destruct j as [|j]; [|intros [=]]. intros [= <-]. split.
  - apply one_channel_blocks. constructor; [|constructor].
    intros s od r d [= <-] [= <-] [= <-] [= <-]. split; vm_compute; discriminate.
  - apply one_channel_blocks. constructor; [|constructor].
    intros od il _ [[=] | [=]].
Qed.

(** *** Each pass run twice *)

Lemma interpolationLengths_pass_channel_bounded (adm adm' : ADM.t) (w : list Warning)
  (c : nat) :
  fix_blockFormat_interpolationLengths adm = (Normal tt, adm', w) ->
  channel_blocks interpolation_bounded c adm'.
Proof.
  intros Hrun cf' i b Hcf' Hb. apply channel_pass_inv in Hrun as [_ Hall].
  destruct (Forall2_lookup_r _ _ _ _ _ Hall Hcf') as (cf & _ & _ & w1 & Hloop).
  apply for_each_inv in Hloop.
  destruct (Forall2_lookup_r _ _ _ _ _ Hloop Hb) as (b0 & _ & w2 & Hstep).
  eapply fix_interpolationLength_bounded, Hstep.
Qed.

Lemma bounded_clamp_stable :
  clamp_stable (fun adm => forall c, channel_blocks interpolation_bounded c adm).
Proof.
  intros o c adm adm' w Hspan HP Hrun c0.
  eapply clamp_keeps_channel_blocks; [|exact Hrun|apply HP].
  intros b b'. now apply clamped_keeps_bounded.
Qed.

(** X1.  A second run of the duration pass on its own result changes
    nothing and emits no warning. *)
Theorem durations_pass_idempotent (adm : ADM.t) :
  exists adm' w,
    fix_blockFormat_durations adm = (Normal tt, adm', w)
    /\ fix_blockFormat_durations adm' = (Normal tt, adm', []).
Proof.
  destruct (durations_pass_runs adm) as (adm' & w & Hrun).
  exists adm', w. split; trivial. apply durations_pass_noop.
  intros c cf' Hcf'. apply channel_pass_inv in Hrun as [_ Hall].
  destruct (Forall2_lookup_r _ _ _ _ _ Hall Hcf') as (cf & _ & _ & w1 & Hloop).
  eapply durations_contiguous_blocks, Hloop.
Qed.

(** X2.  A second run of the interpolation length pass on its own result
    changes nothing and emits no warning. *)
Theorem interpolationLengths_pass_idempotent (adm : ADM.t) :
  exists adm' w,
    fix_blockFormat_interpolationLengths adm = (Normal tt, adm', w)
    /\ fix_blockFormat_interpolationLengths adm' = (Normal tt, adm', []).
Proof.
  destruct (interpolationLengths_pass_runs adm) as (adm' & w & Hrun).
  exists adm', w. split; trivial. apply interpolationLengths_pass_noop.
  intros c. eapply interpolationLengths_pass_channel_bounded, Hrun.
Qed.

Lemma containment_pass_settles {TrackSpec : Type}
  (select_pack_mapping : AudioObject.t -> list (list (nat * TrackSpec)))
  (adm adm' : ADM.t) (w : list Warning) (j : nat) (o : AudioObject.t) (c : nat) :
  fix_blockFormat_times_for_audioObjects select_pack_mapping adm
    = (Normal tt, adm', w) ->
  ADM.audioObjects adm !! j = Some o -> has_span o ->
  selects select_pack_mapping o c ->
  channel_blocks (within o) c adm'
  /\ channel_blocks (interpolation_within o) c adm'.
Proof.
  intros Hrun Ho Hspan Hsel. split.
  - eapply (containment_pass_established select_pack_mapping
              (channel_blocks (within o) c)); eauto.
    + apply within_clamp_stable.
    + intros t t' v. apply clamp_establishes_channel_blocks.
      intros b0 b1. apply clamped_within.
  - eapply (containment_pass_established select_pack_mapping
              (channel_blocks (interpolation_within o) c)); eauto.
    + apply interpolation_within_clamp_stable.
    + intros t t' v. apply clamp_establishes_channel_blocks.
      intros b0 b1. now apply clamped_interpolation_within.
Qed.

(** X3.  When the containment pass has completed, a second run on its
    result completes, changes nothing and emits no warning, whatever the
    scene was. *)
Theorem containment_pass_idempotent {TrackSpec : Type}
  (select_pack_mapping : AudioObject.t -> list (list (nat * TrackSpec)))
  (adm adm' : ADM.t) (w : list Warning) :
  fix_blockFormat_times_for_audioObjects select_pack_mapping adm
    = (Normal tt, adm', w) ->
  fix_blockFormat_times_for_audioObjects select_pack_mapping adm'
    = (Normal tt, adm', []).
Proof.
  intros Hrun. apply containment_pass_noop.
  intros j o c Ho Hspan Hsel.
  rewrite (containment_pass_audioObjects select_pack_mapping adm adm' w Hrun) in Ho.
  eapply containment_pass_settles; eauto.
Qed.

Lemma containment_pass_idempotent_witness :
  exists adm' w,
    fix_blockFormat_times_for_audioObjects select_first_channel scene_in_order
      = (Normal tt, adm', w)
    /\ fix_blockFormat_times_for_audioObjects select_first_channel adm'
       = (Normal tt, adm', []).
Proof.
  eexists _, _. split; [vm_compute; reflexivity|].
  eapply containment_pass_idempotent with (adm := scene_in_order).
  vm_compute. reflexivity.
Defined.

(** *** What the containment pass does to a scene *)

(** X4.  However the containment pass ends, normally or with an exception,
    the scene it leaves has the same audioObjects, channel formats and
    blocks, and every block only shrank: with full timing it starts no
    earlier and ends no later than before, and its interpolation length is
    no longer. *)
Theorem containment_pass_shrinks {TrackSpec : Type}
  (select_pack_mapping : AudioObject.t -> list (list (nat * TrackSpec)))
  (adm adm' : ADM.t) (c : Completion unit) (w : list Warning) :
  fix_blockFormat_times_for_audioObjects select_pack_mapping adm = (c, adm', w) ->
  blockwise shrunk adm adm'.
Proof.
  apply containment_pass_blockwise.
  - apply shrunk_refl.
  - apply shrunk_trans.
  - intros o b c1 b' w1. apply clamp_times_shrunk.
Qed.

Lemma containment_pass_shrinks_witness :
  exists c adm' w,
    fix_blockFormat_times_for_audioObjects select_first_channel scene_in_order
      = (c, adm', w)
    /\ blockwise shrunk scene_in_order adm'.
Proof.
  eexists _, _, _. split; [vm_compute; reflexivity|].
  eapply containment_pass_shrinks with (select_pack_mapping := select_first_channel).
  vm_compute. reflexivity.
Defined.

(** X5.  The containment pass keeps what the two passes before it
    established: on a scene whose channel formats are contiguous, with no
    negative duration and every interpolation length within its duration,
    the scene left by a completed containment pass is so too. *)
Theorem containment_pass_keeps_well_timed {TrackSpec : Type}
  (select_pack_mapping : AudioObject.t -> list (list (nat * TrackSpec)))
  (adm adm' : ADM.t) (w : list Warning) :
  well_timed adm ->
  fix_blockFormat_times_for_audioObjects select_pack_mapping adm
    = (Normal tt, adm', w) ->
  well_timed adm'.
Proof.
  intros Hwt Hrun.
  eapply (containment_pass_invariant select_pack_mapping well_timed);
    eauto using well_timed_clamp_stable.
Qed.

(** X5 on two contiguous blocks, (0, 5) and (5, 5), against an object
    spanning (2, 6): the pass delays the start of the first, advances the
    end of the second and reduces its interpolation length, three warnings
    in all, and the blocks it leaves, (2, 3) and (5, 3), are contiguous. *)
Lemma containment_pass_keeps_well_timed_witness :
  exists adm' w,
    fix_blockFormat_times_for_audioObjects select_first_channel scene_contiguous
      = (Normal tt, adm', w)
    /\ adm' <> scene_contiguous
    /\ length w = 3%nat
    /\ well_timed adm'.
Proof.
  eexists _, _. split; [vm_compute; reflexivity|].
  split; [discriminate|]. split; [reflexivity|].
  eapply containment_pass_keeps_well_timed
    with (select_pack_mapping := select_first_channel) (adm := scene_contiguous).
  - exact scene_contiguous_well_timed.
  - vm_compute. reflexivity.
Defined.

(** *** What the pipeline establishes *)

(** X6.  When [fix_blockFormat_timings] has completed, whatever the scene
    was, the interpolation length of every fully-timed block is within its
    duration, and every fully-timed block of a channel format selected by
    an audioObject with a span lies within that object: the containment
    pass does not undo the interpolation length pass. *)
Theorem timings_bounded_and_within {TrackSpec : Type}
  (select_pack_mapping : AudioObject.t -> list (list (nat * TrackSpec)))
  (adm adm' : ADM.t) (w : list Warning) :
  fix_blockFormat_timings select_pack_mapping adm = (Normal tt, adm', w) ->
  (forall c, channel_blocks interpolation_bounded c adm')
  /\ (forall j o c,
         ADM.audioObjects adm !! j = Some o ->
         selects select_pack_mapping o c ->
         channel_blocks (within o) c adm').
Proof.
  intros Hrun. unfold fix_blockFormat_timings in Hrun.
  apply bind_Normal_inv in Hrun as ([] & admD & wD & wr & HD & Hrun & _).
  apply bind_Normal_inv in Hrun as ([] & admI & wI & wC & HI & HC & _).
  split.
  - apply (containment_pass_invariant select_pack_mapping
             (fun s => forall c, channel_blocks interpolation_bounded c s)
             admI adm' wC); trivial.
    + apply bounded_clamp_stable.
    + intros c. eapply interpolationLengths_pass_channel_bounded, HI.
  - intros j o c Ho Hsel cf i b Hcf Hb s od r d Hs Hod.
    assert (Hspan : has_span o) by now exists s, od.
    apply channel_pass_inv in HD as [HobjD _].
    apply channel_pass_inv in HI as [HobjI _].
    rewrite <- HobjD, <- HobjI in Ho.
    destruct (containment_pass_settles select_pack_mapping admI adm' wC j o c
                HC Ho Hspan Hsel) as [Hin _].
    exact (Hin cf i b Hcf Hb s od r d Hs Hod).
Qed.

Lemma timings_bounded_and_within_witness :
  exists adm' w,
    fix_blockFormat_timings select_first_channel scene_in_order = (Normal tt, adm', w)
    /\ (forall c, channel_blocks interpolation_bounded c adm')
    /\ (forall j o c,
           ADM.audioObjects scene_in_order !! j = Some o ->
           selects select_first_channel o c ->
           channel_blocks (within o) c adm').
Proof.
  eexists _, _. split; [vm_compute; reflexivity|].
  eapply timings_bounded_and_within with (adm := scene_in_order).
  vm_compute. reflexivity.
Defined.



(** *** What the pipeline never does *)

Lemma containment_pass_raises_only_ValueError {TrackSpec : Type}
  (select_pack_mapping : AudioObject.t -> list (list (nat * TrackSpec))) :
  raises_only_ValueError (fix_blockFormat_times_for_audioObjects select_pack_mapping).
Proof.
  unfold fix_blockFormat_times_for_audioObjects.
  apply raises_only_ValueError_bind; [intros s e s' w [=]|].
  intros adm. apply raises_only_ValueError_for_in. intros o.
  destruct (is_None _ || is_None _) eqn:Hguard; [intros s e s' w [=]|].
  apply not_None_has_span in Hguard.
  apply raises_only_ValueError_for_in. intros state.
  apply raises_only_ValueError_for_in. intros [c ts].
  apply raises_only_ValueError_on_audioChannelFormat,
    raises_only_ValueError_on_audioBlockFormats, raises_only_ValueError_for_each.
  now apply clamp_times_raises_only_ValueError.
Qed.

(** X8.  With the pack allocation taken as given ([select_pack_mapping] is
    a function here: what the allocator may raise on its own is outside
    this development, and so is a block without a jump position), a run of
    [fix_blockFormat_timings] that raises does not raise the [TypeError] of
    a comparison or a sum with [None], nor the [AssertionError] of the
    [assert False]: the guards on unset fields cover every such use. *)
Theorem timings_never_TypeError_nor_AssertionError {TrackSpec : Type}
  (select_pack_mapping : AudioObject.t -> list (list (nat * TrackSpec)))
  (adm adm' : ADM.t) (e : Exception) (w : list Warning) :
  fix_blockFormat_timings select_pack_mapping adm = (Raised e, adm', w) ->
  e <> TypeError /\ e <> AssertionError.
Proof.
  intros Hrun.
  assert (H : is_ValueError e).
  { revert Hrun. apply raises_only_ValueError_bind.
    - intros s e1 s' w1 H. destruct (durations_pass_runs s) as (? & ? & Hs).
      rewrite Hs in H. discriminate.
    - intros _. apply raises_only_ValueError_bind.
      + intros s e1 s' w1 H. destruct (interpolationLengths_pass_runs s) as (? & ? & Hs).
        rewrite Hs in H. discriminate.
      + intros _. apply containment_pass_raises_only_ValueError. }
  destruct e as [msg| |]; [split; discriminate|destruct H..].
Qed.

Lemma timings_never_TypeError_nor_AssertionError_witness :
  exists e adm' w,
    fix_blockFormat_timings select_first_channel scene_infeasible
      = (Raised e, adm', w)
    /\ e <> TypeError /\ e <> AssertionError.
Proof.
  eexists _, _, _. split; [vm_compute; reflexivity|].
  eapply timings_never_TypeError_nor_AssertionError
    with (select_pack_mapping := select_first_channel) (adm := scene_infeasible).
  vm_compute. reflexivity.
Defined.

Lemma containment_pass_reports_changes {TrackSpec : Type}
  (select_pack_mapping : AudioObject.t -> list (list (nat * TrackSpec))) :
  reports_changes (fix_blockFormat_times_for_audioObjects select_pack_mapping).
Proof.
  unfold fix_blockFormat_times_for_audioObjects.
  apply reports_changes_bind; [apply reports_changes_get|].
  intros adm. apply reports_changes_for_in. intros o.
  destruct (is_None _ || is_None _); [apply reports_changes_ret|].
  apply reports_changes_for_in. intros state.
  apply reports_changes_for_in. intros [c ts].
  apply reports_changes_on_audioChannelFormat,
    reports_changes_on_audioBlockFormats, reports_changes_for_each,
    clamp_times_reports_changes.
Qed.

(** X9.  Every change is reported: a run of [fix_blockFormat_timings] that
    emitted no warning, however it ended, left the scene exactly as it
    was. *)
Theorem timings_reports_changes {TrackSpec : Type}
  (select_pack_mapping : AudioObject.t -> list (list (nat * TrackSpec)))
  (adm adm' : ADM.t) (c : Completion unit) :
  fix_blockFormat_timings select_pack_mapping adm = (c, adm', []) ->
  adm' = adm.
Proof.
  revert adm c adm'.
  change (reports_changes (fix_blockFormat_timings select_pack_mapping)).
  apply reports_changes_bind.
  - apply reports_changes_on_audioChannelFormats, reports_changes_for_each,
      reports_changes_on_audioBlockFormats, reports_changes_for_adjacent,
      fix_duration_reports_changes.
  - intros _. apply reports_changes_bind.
    + apply reports_changes_on_audioChannelFormats, reports_changes_for_each,
        reports_changes_on_audioBlockFormats, reports_changes_for_each,
        fix_interpolationLength_reports_changes.
    + intros _. apply containment_pass_reports_changes.
Qed.

Lemma timings_reports_changes_witness :
  exists c adm',
    fix_blockFormat_timings select_first_channel scene_infeasible = (c, adm', [])
    /\ adm' = scene_infeasible.
Proof.
  eexists _, _. split; [vm_compute; reflexivity|].
  eapply timings_reports_changes with (select_pack_mapping := select_first_channel).
  vm_compute. reflexivity.
Defined.

(** X10.  A scene that is already consistent is left alone: when every
    channel format is contiguous, every interpolation length is within its
    duration, and every block selected by an audioObject with a span is
    within it, [fix_blockFormat_timings] completes, emits no warning and
    changes nothing. *)
Theorem timings_noop_on_consistent {TrackSpec : Type}
  (select_pack_mapping : AudioObject.t -> list (list (nat * TrackSpec)))
  (adm : ADM.t) :
  (forall c cf, ADM.audioChannelFormats adm !! c = Some cf ->
                contiguous (AudioChannelFormat.audioBlockFormats cf)) ->
  (forall c, channel_blocks interpolation_bounded c adm) ->
  (forall j o c,
      ADM.audioObjects adm !! j = Some o -> has_span o ->
      selects select_pack_mapping o c ->
      channel_blocks (within o) c adm
      /\ channel_blocks (interpolation_within o) c adm) ->
  fix_blockFormat_timings select_pack_mapping adm = (Normal tt, adm, []).
Proof.
  intros Hcont Hbounded Hwithin. unfold fix_blockFormat_timings, bind.
  rewrite (durations_pass_noop adm Hcont).
  rewrite (interpolationLengths_pass_noop adm Hbounded).
  now rewrite containment_pass_noop.
Qed.

Lemma timings_noop_on_consistent_witness :
  fix_blockFormat_timings select_first_channel scene_consistent
  = (Normal tt, scene_consistent, []).
Proof.
  apply timings_noop_on_consistent.
  - exact (proj1 scene_consistent_well_timed).
  - exact (proj2 (proj2 scene_consistent_well_timed)).
  - intros j o c Ho _ _. exact (scene_consistent_within j o c Ho).
Defined.

(** X11.  However [fix_blockFormat_timings] ends, the scene keeps its
    structure: the same audioObjects, the same channel formats with the
    same ids, the same number of blocks in each, and every block with its
    id, its class and its flag, and with [rtime], [duration] and the
    interpolation length set exactly when they were before. *)
Theorem timings_same_shape {TrackSpec : Type}
  (select_pack_mapping : AudioObject.t -> list (list (nat * TrackSpec)))
  (adm adm' : ADM.t) (c : Completion unit) (w : list Warning) :
  fix_blockFormat_timings select_pack_mapping adm = (c, adm', w) ->
  blockwise same_shape adm adm'.
Proof.
  apply timings_blockwise.
  - apply same_shape_refl.
  - apply same_shape_trans.
  - intros bf_b b c1 b' w1. apply fix_duration_same_shape.
  - intros b c1 b' w1. apply fix_interpolationLength_same_shape.
  - intros o b c1 b' w1 _. apply clamp_times_same_shape.
Qed.

Lemma timings_same_shape_witness :
  exists c adm' w,
    fix_blockFormat_timings select_first_channel scene_out_of_order = (c, adm', w)
    /\ blockwise same_shape scene_out_of_order adm'.
Proof.
  eexists _, _, _. split; [vm_compute; reflexivity|].
  eapply timings_same_shape with (select_pack_mapping := select_first_channel).
  vm_compute. reflexivity.
Defined.

(** *** When a clamp is feasible *)

Ltac feasible :=
  first [ lra
        | split; feasible
        | left; feasible
        | right; feasible
        | intros ? [= <-]; lra
        | intros ? [=] ].

(** X12.  A fully-timed block can be clamped into an object with a span
    exactly when the part of the block at or after the object's start is
    not empty and reaches into the interpolation period, and the block
    ends within the object or what is left of it starts before the
    object's end. *)
Theorem clamp_times_completes_iff
  (o : AudioObject.t) (bf : BlockFormat.t) (r d s od : Q) :
  BlockFormat.rtime bf = Some r -> BlockFormat.duration bf = Some d ->
  AudioObject.start o = Some s -> AudioObject.duration o = Some od ->
  (exists bf' w, _clamp_blockFormat_times o bf = (Normal tt, bf', w))
  <-> (s <= r
       \/ s - r < d
          /\ forall il, defined_interpolationLength bf = Some il -> s - r < il)
      /\ (r + d <= s + od \/ s <= r /\ r < s + od \/ r < s /\ 0 < od).
Proof.
  intros Hr Hd Hs Hod. destruct o as [oid ostart odur]. cbn in Hs, Hod. subst.
  block_shapes bf; cbn in Hr, Hd; try discriminate.
  all: injection Hr as ->; injection Hd as ->.
  all: block_runs; qcases; qprop.
  all: split;
    [ first [ solve [intros (bf' & w & [=])]
            | solve [intros _; cbn -[Qplus Qminus Qlt Qle Qeq]; feasible] ]
    | first [ solve [intros _; eexists _, _; reflexivity]
            | solve [cbn -[Qplus Qminus Qlt Qle Qeq];
                     intros [[H1 | [H1 Hil]] [H2 | [[H2 H3] | [H2 H3]]]]; exfalso;
                     try specialize (Hil _ eq_refl); lra] ] ].
Qed.

Lemma clamp_times_completes_iff_witness :
  exists bf' w, _clamp_blockFormat_times (span 1 10) (timed 0 3 (Some 2)) = (Normal tt, bf', w).
Proof.
  apply (proj2 (clamp_times_completes_iff (span 1 10) (timed 0 3 (Some 2)) 0 3 1 10
                  eq_refl eq_refl eq_refl eq_refl)).
  split.
  - right. split; [reflexivity|]. intros il [= <-]. reflexivity.
  - left. vm_compute. discriminate.
Defined.

(** X13.  A clamp never leaves an empty block behind: a fully-timed block
    that a completed clamp modified has a duration greater than zero. *)
Theorem clamp_times_modified_positive
  (o : AudioObject.t) (bf bf' : BlockFormat.t) (w : list Warning) (r d d' : Q) :
  has_span o ->
  BlockFormat.rtime bf = Some r -> BlockFormat.duration bf = Some d ->
  _clamp_blockFormat_times o bf = (Normal tt, bf', w) ->
  bf' <> bf ->
  BlockFormat.duration bf' = Some d' ->
  0 < d'.
Proof.
  intros (s & od & Hs & Hod) Hr Hd Hrun Hne Hd'.
  destruct (clamp_times_timed_result o bf bf' w r d s od Hr Hd Hs Hod Hrun)
    as (r1 & d1 & Hr1 & Hd1 & Hstart & Hend & Hsame & _).
  rewrite Hd' in Hd1. injection Hd1 as <-.
  destruct Hstart as [(? & ? & ?) | (? & ->)], Hend as [(? & ? & ?) | (? & ?)];
    try lra.
  destruct Hne. now apply Hsame.
Qed.

Lemma clamp_times_modified_positive_witness : 0 < 10 - (0 + 10 - (0 + 6)).
Proof.
  apply (clamp_times_modified_positive (span 0 6) (timed 0 10 (Some 9))
           (timed 0 (10 - (0 + 10 - (0 + 6))) (Some (10 - (0 + 10 - (0 + 6)))))
           [WarnAdvancingEnd "AB_00031001_00000001" "AO_1001" (0 + 10 - (0 + 6));
            WarnAdvancingEndInterpolationLength
              "AB_00031001_00000001" "AO_1001" (0 + 10 - (0 + 6))]
           0 10 _).
  - now exists 0, 6.
  - reflexivity.
  - reflexivity.
  - reflexivity.
  - discriminate.
  - reflexivity.
Defined.

(** *** The warnings of the duration pass *)

Lemma fix_duration_truthful (bf_b bf_a a' : BlockFormat.t)
  (c : Completion unit) (w : list Warning) :
  fix_duration bf_b bf_a = (c, a', w) -> Forall truthful_WarnDuration w.
Proof.
  destruct (fix_duration_total bf_b bf_a) as (a1 & w1 & Hrun). rewrite Hrun.
  intros [= <- <- <-]. apply fix_duration_result in Hrun as (_ & _ & Hrun).
  destruct (BlockFormat.rtime bf_a) as [ra|], (BlockFormat.duration bf_a) as [old|],
    (BlockFormat.rtime bf_b) as [rb|], (BlockFormat.duration bf_b) as [db|].
  2-16: destruct Hrun as [_ ->]; constructor.
  destruct (Qeq_dec old (rb - ra)) as [Heq | Hne].
  - destruct (proj1 Hrun Heq) as [_ ->]. constructor.
  - destruct (proj2 Hrun Hne) as (_ & -> & _). constructor; [|constructor].
    split; trivial. destruct (Qltb old (rb - ra)) eqn:Htest; qprop.
    + tauto.
    + split; [discriminate|]. intros H. lra.
Qed.

(** X14.  The warnings of the duration pass say what happened: each names
    an old and a new duration that differ, and says "expanded" exactly when
    the new one is greater. *)
Theorem durations_pass_truthful_warnings (adm : ADM.t) :
  exists adm' w,
    fix_blockFormat_durations adm = (Normal tt, adm', w)
    /\ Forall truthful_WarnDuration w.
Proof.
  destruct (durations_pass_runs adm) as (adm' & w & Hrun).
  exists adm', w. split; trivial.
  eapply channel_pass_warnings; [|exact Hrun].
  intros bs c bs' w1. apply for_adjacent_warnings.
  intros b a c1 a' w2. apply fix_duration_truthful.
Qed.

(** *** What the first two passes leave alone *)

(** X15.  The duration pass never writes an [rtime], and leaves a block
    whose [rtime] or [duration] is unset exactly as it is. *)
Theorem durations_pass_frame (adm : ADM.t) :
  exists adm' w,
    fix_blockFormat_durations adm = (Normal tt, adm', w)
    /\ blockwise
         (fun b b' =>
            BlockFormat.rtime b' = BlockFormat.rtime b
            /\ (BlockFormat.rtime b = None \/ BlockFormat.duration b = None -> b' = b))
         adm adm'.
Proof.
  destruct (durations_pass_runs adm) as (adm' & w & Hrun).
  exists adm', w. split; trivial.
  eapply channel_pass_blockwise; [| |exact Hrun]; [intros b; tauto|].
  intros bs c bs' w1. apply for_adjacent_rel; [intros b; tauto|].
  intros b a c1 a' w2 Hstep.
  destruct (fix_duration_total b a) as (a1 & w3 & Htotal).
  rewrite Htotal in Hstep. injection Hstep as <- <- <-.
  pose proof Htotal as Hres. apply fix_duration_result in Hres as (_ & Hrt & Hres).
  split; trivial. intros Hunset.
  rewrite fix_duration_skip in Htotal by tauto. now injection Htotal as <-.
Qed.

(** X16.  The interpolation length pass never writes an [rtime] or a
    [duration], and leaves a block without full timing, or without an
    interpolation length, exactly as it is. *)
Theorem interpolationLengths_pass_frame (adm : ADM.t) :
  exists adm' w,
    fix_blockFormat_interpolationLengths adm = (Normal tt, adm', w)
    /\ blockwise
         (fun b b' =>
            BlockFormat.rtime b' = BlockFormat.rtime b
            /\ BlockFormat.duration b' = BlockFormat.duration b
            /\ (BlockFormat.rtime b = None \/ BlockFormat.duration b = None
                \/ _has_interpolationLength b = false -> b' = b))
         adm adm'.
Proof.
  destruct (interpolationLengths_pass_runs adm) as (adm' & w & Hrun).
  exists adm', w. split; trivial.
  eapply channel_pass_blockwise; [| |exact Hrun]; [intros b; tauto|].
  intros bs c bs' w1. apply for_each_rel; [intros b; tauto|].
  intros b c1 b' w2 Hstep.
  destruct (fix_interpolationLength_total b) as (b1 & w3 & Htotal).
  rewrite Htotal in Hstep. injection Hstep as <- <- <-.
  destruct (fix_interpolationLength_timing b b1 w3 Htotal) as [Hr Hd].
  split; trivial. split; trivial. intros Hskip.
  rewrite fix_interpolationLength_eq in Htotal.
  destruct (BlockFormat.rtime b) as [r|], (BlockFormat.duration b) as [d|];
    try (now injection Htotal as <-).
  destruct Hskip as [[=] | [[=] | Hno]].
  unfold defined_interpolationLength in Htotal. rewrite Hno in Htotal.
  now injection Htotal as <-.
Qed.

(** X17.  Whatever the block and the object, also with unset fields, the
    [assert False] of [_clamp_blockFormat_times] is never reached. *)
Lemma clamp_times_never_asserts
  (o : AudioObject.t) (bf bf' : BlockFormat.t) (w : list Warning) :
  _clamp_blockFormat_times o bf <> (Raised AssertionError, bf', w).
Proof.
  destruct (BlockFormat.rtime bf) as [r|] eqn:Hr;
    [destruct (BlockFormat.duration bf) as [d|] eqn:Hd|].
  - rewrite (clamp_times_timed o bf r d Hr Hd).
    destruct o as [oid [s|] [od|]]; block_shapes bf; try discriminate.
    all: unfold _clamp_blockFormat_start, _clamp_blockFormat_end; unfold_eff.
    all: qcases; discriminate.
  - rewrite (clamp_times_untimed o bf (or_intror Hd)).
    destruct o as [oid s [od|]]; block_shapes bf.
    all: unfold _clamp_blockFormat_interpolationLength; unfold_eff.
    all: qcases; discriminate.
  - rewrite (clamp_times_untimed o bf (or_introl Hr)).
    destruct o as [oid s [od|]]; block_shapes bf.
    all: unfold _clamp_blockFormat_interpolationLength; unfold_eff.
    all: qcases; discriminate.
Qed.

Lemma clamp_times_never_asserts_witness :
  _clamp_blockFormat_times (span 5 10) (timed 0 2 None)
  <> (Raised AssertionError, timed 0 2 None, []).
Proof.
  apply clamp_times_never_asserts.
Defined.

(** *** Jump positions that are not in use *)

Lemma keeps_unused_jumpPosition_refl (b : BlockFormat.t) :
  keeps_unused_jumpPosition b b.
Proof. now split. Qed.

Lemma keeps_unused_jumpPosition_trans (b1 b2 b3 : BlockFormat.t) :
  keeps_unused_jumpPosition b1 b2 -> keeps_unused_jumpPosition b2 b3 ->
  keeps_unused_jumpPosition b1 b3.
Proof.
  intros [H1 H2] [H3 H4]. split; [congruence|].
  intros Hno. rewrite H4 by congruence. now apply H2.
Qed.

Ltac unused_goal :=
  intros H; inversion H; subst;
  unfold keeps_unused_jumpPosition, _has_interpolationLength; cbn;
  split; trivial; discriminate.

Lemma fix_duration_keeps_unused (bf_b bf bf' : BlockFormat.t)
  (c : Completion unit) (w : list Warning) :
  fix_duration bf_b bf = (c, bf', w) -> keeps_unused_jumpPosition bf bf'.
Proof.
  block_runs.
  destruct (BlockFormat.rtime bf_b), (BlockFormat.duration bf_b);
    block_shapes bf; qcases; unused_goal.
Qed.

Lemma fix_interpolationLength_keeps_unused (bf bf' : BlockFormat.t)
  (c : Completion unit) (w : list Warning) :
  fix_interpolationLength bf = (c, bf', w) -> keeps_unused_jumpPosition bf bf'.
Proof.
  block_runs. block_shapes bf; qcases; unused_goal.
Qed.

Lemma clamp_times_keeps_unused (o : AudioObject.t) (bf bf' : BlockFormat.t)
  (c : Completion unit) (w : list Warning) :
  _clamp_blockFormat_times o bf = (c, bf', w) -> keeps_unused_jumpPosition bf bf'.
Proof.
  destruct o as [oid [s|] [od|]]; block_runs.
  all: block_shapes bf; qcases; unused_goal.
Qed.

(** X18.  A jump position that is not in use is never written: however
    [fix_blockFormat_timings] ends, a block that is not an
    [AudioBlockFormatObjects], or whose flag is off, or whose
    interpolation length is unset, keeps its class and jump position as
    they were, even where its interpolation length exceeds its duration. *)
Theorem timings_keeps_unused_jumpPosition {TrackSpec : Type}
  (select_pack_mapping : AudioObject.t -> list (list (nat * TrackSpec)))
  (adm adm' : ADM.t) (c : Completion unit) (w : list Warning) :
  fix_blockFormat_timings select_pack_mapping adm = (c, adm', w) ->
  blockwise keeps_unused_jumpPosition adm adm'.
Proof.
  apply timings_blockwise.
  - apply keeps_unused_jumpPosition_refl.
  - apply keeps_unused_jumpPosition_trans.
  - intros bf_b b c1 b' w1. apply fix_duration_keeps_unused.
  - intros b c1 b' w1. apply fix_interpolationLength_keeps_unused.
  - intros o b c1 b' w1 _. apply clamp_times_keeps_unused.
Qed.

Lemma timings_keeps_unused_jumpPosition_witness :
  exists c adm' w,
    fix_blockFormat_timings select_first_channel scene_flag_off = (c, adm', w)
    /\ blockwise keeps_unused_jumpPosition scene_flag_off adm'.
Proof.
  eexists _, _, _. split; [vm_compute; reflexivity|].
  eapply timings_keeps_unused_jumpPosition
    with (select_pack_mapping := select_first_channel).
  vm_compute. reflexivity.
Defined.

(** *** The first two passes together *)

(** X19.  The interpolation length pass does not undo the duration pass:
    after the two, in this order, every channel format is contiguous and
    every interpolation length is within its duration, whatever the scene
    was. *)
Theorem durations_then_interpolationLengths (adm : ADM.t) :
  exists adm1 w1 adm2 w2,
    fix_blockFormat_durations adm = (Normal tt, adm1, w1)
    /\ fix_blockFormat_interpolationLengths adm1 = (Normal tt, adm2, w2)
    /\ (forall c cf, ADM.audioChannelFormats adm2 !! c = Some cf ->
                     contiguous (AudioChannelFormat.audioBlockFormats cf))
    /\ (forall c, channel_blocks interpolation_bounded c adm2).
Proof.
  destruct (durations_pass_runs adm) as (adm1 & w1 & HD).
  destruct (interpolationLengths_pass_runs adm1) as (adm2 & w2 & HI).
  exists adm1, w1, adm2, w2. split; trivial. split; trivial. split.
  - intros c cf2 Hcf2 i a2 b2 Ha2 Hb2.
    pose proof HI as Hinv. apply channel_pass_inv in Hinv as [_ Hall].
    destruct (Forall2_lookup_r _ _ _ _ _ Hall Hcf2) as (cf1 & Hcf1 & _ & w3 & Hloop).
    apply for_each_inv in Hloop.
    destruct (Forall2_lookup_r _ _ _ _ _ Hloop Ha2) as (a1 & Ha1 & wa & Hstepa).
    destruct (Forall2_lookup_r _ _ _ _ _ Hloop Hb2) as (b1 & Hb1 & wb & Hstepb).
    apply fix_interpolationLength_timing in Hstepa as [Hra Hda].
    apply fix_interpolationLength_timing in Hstepb as [Hrb Hdb].
    unfold joined. rewrite Hra, Hda, Hrb, Hdb.
    apply channel_pass_inv in HD as [_ HallD].
    destruct (Forall2_lookup_r _ _ _ _ _ HallD Hcf1) as (cf0 & _ & _ & w4 & HloopD).
    exact (durations_contiguous_blocks _ _ _ HloopD i a1 b1 Ha1 Hb1).
  - intros c. eapply interpolationLengths_pass_channel_bounded, HI.
Qed.
